(** * go-imapgrab, package core: the IMAP client layer (core/imap_client.go)

    A shallow embedding of the session set-up ([newImapClient],
    [authenticateClient]), the two channel-draining enumerations
    ([getFolderList], [getAllMessageUUIDs]), the single-fire primitive
    [once] and the two-goroutine pipeline of [streamingRetrieval],
    followed by the properties proved about them.

    Sequential code is written in a small trace monad that records the
    calls made to the outside world.  Code that starts goroutines is a
    step function on an explicit state: one program counter per goroutine,
    the shared variables, and the channels.  A schedule is a list of
    labels; every behaviour of the Go program under a sequentially
    consistent interleaving is the run of some schedule. *)

From Stdlib Require Import ZArith String Ascii List Lia Bool.
From Stdlib Require Import DecimalString DecimalZ.
From stdpp Require Import base option list.

(* ================================================================= *)
(** * Part I: the model *)
(* ================================================================= *)

(** ** Go values used by the package *)

(** A Go [error].  [Errorf] is an error this package builds itself with
    [fmt.Errorf]; [External] is one handed back by the go-imap client. *)
Inductive error : Type :=
| Errorf (msg : string)
| External (descr : string).

(** [fmt.Sprintf("%d", n)]: decimal digits, a leading minus sign for
    negative numbers. *)
Definition itoa (n : Z) : string := NilEmpty.string_of_int (Z.to_int n).

(** [strings.HasPrefix(s, prefix)]. *)
Definition hasPrefix (s prefix : string) : bool := String.prefix prefix s.

(** [strings.IndexByte] and [strings.LastIndexByte], with [None] for -1. *)
Fixpoint indexByte (s : string) (c : ascii) : option nat :=
  match s with
  | EmptyString => None
  | String a r => if Ascii.eqb a c then Some O else option_map S (indexByte r c)
  end.

Fixpoint lastIndexByte (s : string) (c : ascii) : option nat :=
  match s with
  | EmptyString => None
  | String a r =>
      match lastIndexByte r c with
      | Some i => Some (S i)
      | None => if Ascii.eqb a c then Some O else None
      end
  end.

Definition containsByte (s : string) (c : ascii) : bool :=
  match indexByte s c with Some _ => true | None => false end.

(** The slice [s[i:]]. *)
Definition sliceFrom (s : string) (i : nat) : string :=
  substring i (String.length s - i) s.

(** The host and port of an address in Go's "host:port" form, as the
    standard library's [net.SplitHostPort] computes them: the port starts
    after the last colon, a host with a colon of its own has to be
    bracketed, and brackets may appear nowhere else.  This is the function
    [client.Dial] itself uses to read the address it is given. *)
Definition splitHostPort (hostport : string) : option (string * string) :=
  match lastIndexByte hostport ":" with
  | None => None
  | Some i =>
      let port := sliceFrom hostport (S i) in
      match hostport with
      | String "[" _ =>
          match indexByte hostport "]" with
          | None => None
          | Some e =>
              if Nat.eqb (S e) i then
                if containsByte (sliceFrom hostport 1) "["
                   || containsByte (sliceFrom hostport (S e)) "]"
                then None
                else Some (substring 1 (e - 1) hostport, port)
              else None
          end
      | _ =>
          let host := substring 0 i hostport in
          if containsByte host ":" then None
          else if containsByte hostport "[" || containsByte hostport "]"
               then None
               else Some (host, port)
      end
  end.

(** The only host an insecure connection is allowed to. *)
Definition loopback : string := "127.0.0.1".

(** ** Message and mailbox identifiers *)

(** [type uid int] and [type uidFolder int]. *)
Definition uid : Type := Z.
Definition uidFolder : Type := Z.

Bind Scope Z_scope with uid uidFolder.

(** [type uidExt struct { folder uidFolder; msg uid }]. *)
Record uidExt : Type := mkUidExt { folder : uidFolder; msg : uid }.

(** [func (u uidExt) String() string]: [fmt.Sprintf("%d/%d", u.folder, u.msg)]. *)
Definition uidExt_String (u : uidExt) : string :=
  (itoa (folder u) ++ "/" ++ itoa (msg u))%string.

(** ** The go-imap types the package touches *)

(** [imap.MailboxInfo]; only [Name] is read. *)
Record MailboxInfo : Type := { Name : string }.

(** [imap.MailboxStatus]: [Messages] and [UidValidity] are [uint32]. *)
Record MailboxStatus : Type :=
  { Flags : list string; Messages : Z; UidValidity : Z }.

(** [imap.Message]: [Uid] is a [uint32]. *)
Record Message : Type := { Uid : Z; InternalDate : Z; Body : string }.

(** One addition to an [imap.SeqSet]: [AddNum] or [AddRange]. *)
Inductive seq : Type :=
| SeqNum (n : Z)
| SeqRange (start stop : Z).

Definition SeqSet : Type := list seq.

Inductive FetchItem : Type := FetchUid | FetchInternalDate | FetchRFC822.

(** [type imapOps interface].  A method that reports through a channel is
    given by what it does to that channel: the values it sends, in order
    (a [None] is a nil pointer), and the error it returns.  [List] and
    [Fetch] close their channel before they return, which the range loops
    of this package rely on to terminate; whether [UidFetch] does is left
    to the implementation ([uf_closes]). *)
Record UidFetchReply : Type :=
  { uf_sends : list (option Message); uf_closes : bool; uf_err : option error }.

Record imapOps : Type :=
  { Login : string -> string -> option error;
    List : string -> string -> list (option MailboxInfo) * option error;
    Select : string -> bool -> option MailboxStatus * option error;
    Fetch : SeqSet -> list FetchItem -> list (option Message) * option error;
    UidFetch : SeqSet -> list FetchItem -> UidFetchReply;
    Logout : option error;
    Terminate : option error }.

(** [const ( folderListBuffer = 10; messageRetrievalBuffer = 20 )]. *)
Definition folderListBuffer : nat := 10.
Definition messageRetrievalBuffer : nat := 20.

(** ** Sequential code: a trace of what is asked of the outside world *)

Inductive logLevel : Type := LvlInfo | LvlWarning | LvlError.

Inductive event : Type :=
| EvLog (lvl : logLevel) (text : string)
| EvDial (addr : string)
| EvDialTLS (addr : string)
| EvLogin (user password : string).

Definition IO (A : Type) : Type := (list event * A)%type.

Definition ret {A : Type} (a : A) : IO A := ([], a).

Definition bind {A B : Type} (m : IO A) (k : A -> IO B) : IO B :=
  let '(t1, a) := m in let '(t2, b) := k a in (t1 ++ t2, b).

Notation "'let*' x ':=' m 'in' k" := (bind m (fun x => k))
  (at level 10, x name, m at level 100, k at level 200).
Notation "m '>>' k" := (bind m (fun _ => k))
  (at level 90, right associativity).

Definition emit (e : event) : IO unit := ([e], tt).

Definition logInfo (text : string) : IO unit := emit (EvLog LvlInfo text).
Definition logWarning (text : string) : IO unit := emit (EvLog LvlWarning text).
Definition logError (text : string) : IO unit := emit (EvLog LvlError text).

(** A connection attempt is an event of the trace. *)
Definition isDial (e : event) : bool :=
  match e with EvDial _ | EvDialTLS _ => true | _ => false end.

Definition isLogin (e : event) : bool :=
  match e with EvLogin _ _ => true | _ => false end.

(** [IMAPConfig], the fields read here. *)
Record IMAPConfig : Type :=
  { Server : string; Port : Z; User : string; Password : string;
    Insecure : bool }.

Section Session.

(** [client.Dial] and [client.DialTLS] of go-imap: the answer of the
    network to a connection attempt. *)
Variable clientDial : string -> imapOps + error.
Variable clientDialTLS : string -> imapOps + error.

Definition dial (addr : string) : IO (imapOps + error) :=
  emit (EvDial addr) >> ret (clientDial addr).

Definition dialTLS (addr : string) : IO (imapOps + error) :=
  emit (EvDialTLS addr) >> ret (clientDialTLS addr).

(** The error of the middle branch of [newImapClient]. *)
Definition insecureNotAllowed (addr : string) : error :=
  Errorf ("not allowing insecure auth for non-localhost address "
          ++ addr ++ ", use 127.0.0.1")%string.

(** [var newImapClient = func(addr string, insecure bool) (imap imapOps, err error)]:
    [inl] is a client with a nil error, [inr] a nil client with an error. *)
Definition newImapClient (addr : string) (insecure : bool)
  : IO (imapOps + error) :=
  if negb insecure then
    dialTLS addr
  else if negb (hasPrefix addr "127.0.0.1:") then
    ret (inr (insecureNotAllowed addr))
  else
    logWarning "using insecure connection to locahost" >>
    dial addr.

(** The error [authenticateClient] builds for an empty password. *)
Definition passwordNotSet : error := Errorf "password not set".

(** [imapClient.Login(user, password)] on a connected client. *)
Definition login (c : imapOps) (user password : string) : IO (option error) :=
  emit (EvLogin user password) >> ret (Login c user password).

(** [func authenticateClient(config IMAPConfig) (imapClient imapOps, err error)]. *)
Definition authenticateClient (config : IMAPConfig) : IO (imapOps + error) :=
  if Nat.eqb (String.length (Password config)) 0 then
    logError "empty password detected" >>
    ret (inr passwordNotSet)
  else
    logInfo ("connecting to server " ++ Server config)%string >>
    let serverWithPort := (Server config ++ ":" ++ itoa (Port config))%string in
    let* r := newImapClient serverWithPort (Insecure config) in
    match r with
    | inr err =>
        logError "cannot connect" >>
        ret (inr err)
    | inl imapClient =>
        logInfo "connected" >>
        logInfo ("logging in as " ++ User config ++ " with provided password")%string >>
        let* e := login imapClient (User config) (Password config) in
        match e with
        | Some err =>
            logError "cannot log in" >>
            ret (inr err)
        | None =>
            logInfo "logged in" >>
            ret (inl imapClient)
        end
    end.

End Session.

(** A network on which every connection attempt is refused. *)
Definition unreachableDial (addr : string) : imapOps + error :=
  inr (External "connection refused").

(** ** The single-fire primitive [once] *)

(** Goroutines are told apart by a number. *)
Definition tid : Type := nat.

Section Once.

(** What the wrapped action acts on, and the wrapped action. *)
Context {W : Type}.
Variable hook : W -> W.

(** [type once struct { called bool; hook func(); sync.Once }].  The
    embedded [sync.Once] is its [done] flag and its mutex [mu], with the
    goroutine that holds it.  [fired] counts the executions of the
    wrapped action and [world] is what it has made of its surroundings;
    neither is read by the program. *)
Record once : Type := mkOnce
  { called : bool;
    done : bool;
    mu : option tid;
    fired : nat;
    world : W }.

(** [func newOnce(hook func()) *once]. *)
Definition newOnce (w : W) : once :=
  {| called := false; done := false; mu := None; fired := 0; world := w |}.

(** Where a goroutine stands inside [o.call()], that is [o.Do(o.hook)]
    with the body of [sync.Once.Do] and of [innerHook] written out:
    [[
      if o.done.Load() == 0 {            DoFast
        o.m.Lock()                       DoLock
        defer o.m.Unlock()
        if o.done.Load() == 0 {          DoCheck
          defer o.done.Store(1)
          o.called = true                HookCalled
          hook()                         HookRun
        }                                DoStore, DoUnlock
      }                                  DoReturn
    ]] *)
Inductive call_pc : Type :=
| DoFast | DoLock | DoCheck | HookCalled | HookRun | DoStore | DoUnlock
| DoReturn.

(** One step of goroutine [t] inside [call]; [None] when it cannot move
    (the mutex is taken, or the call has returned). *)
Definition call_step (t : tid) (pc : call_pc) (o : once)
  : option (call_pc * once) :=
  match pc with
  | DoFast => Some (if done o then DoReturn else DoLock, o)
  | DoLock =>
      match mu o with
      | None => Some (DoCheck,
                      {| called := called o; done := done o; mu := Some t;
                         fired := fired o; world := world o |})
      | Some _ => None
      end
  | DoCheck => Some (if done o then DoUnlock else HookCalled, o)
  | HookCalled =>
      Some (HookRun,
            {| called := true; done := done o; mu := mu o;
               fired := fired o; world := world o |})
  | HookRun =>
      Some (DoStore,
            {| called := called o; done := done o; mu := mu o;
               fired := S (fired o); world := hook (world o) |})
  | DoStore =>
      Some (DoUnlock,
            {| called := called o; done := true; mu := mu o;
               fired := fired o; world := world o |})
  | DoUnlock =>
      Some (DoReturn,
            {| called := called o; done := done o; mu := None;
               fired := fired o; world := world o |})
  | DoReturn => None
  end.

(** Between [Lock] and [Unlock]. *)
Definition in_cs (pc : call_pc) : bool :=
  match pc with
  | DoCheck | HookCalled | HookRun | DoStore | DoUnlock => true
  | DoFast | DoLock | DoReturn => false
  end.

(** *** Any number of goroutines calling [call] any number of times *)

(** A caller is outside [call] with some invocations still to make, or
    inside one. *)
Inductive caller_pc : Type :=
| Idle
| Calling (pc : call_pc).

Record caller : Type := mkCaller { c_pc : caller_pc; c_todo : nat }.

(** The primitive, its callers, and the number of invocations that have
    returned. *)
Record pool : Type := mkPool
  { p_once : once; p_callers : list caller; p_returned : nat }.

Definition pool_init (w : W) (todo : list nat) : pool :=
  {| p_once := newOnce w; p_callers := map (mkCaller Idle) todo;
     p_returned := 0 |}.

(** One step of caller [t]. *)
Definition pool_step (t : tid) (p : pool) : option pool :=
  match p_callers p !! t with
  | None => None
  | Some c =>
      match c_pc c with
      | Idle =>
          match c_todo c with
          | O => None
          | S k =>
              Some {| p_once := p_once p;
                      p_callers := <[t := mkCaller (Calling DoFast) k]> (p_callers p);
                      p_returned := p_returned p |}
          end
      | Calling DoReturn =>
          Some {| p_once := p_once p;
                  p_callers := <[t := mkCaller Idle (c_todo c)]> (p_callers p);
                  p_returned := S (p_returned p) |}
      | Calling pc =>
          match call_step t pc (p_once p) with
          | None => None
          | Some (pc', o') =>
              Some {| p_once := o';
                      p_callers := <[t := mkCaller (Calling pc') (c_todo c)]> (p_callers p);
                      p_returned := p_returned p |}
          end
      end
  end.

(** A schedule names the caller that moves next. *)
Fixpoint pool_run (sched : list tid) (p : pool) : option pool :=
  match sched with
  | [] => Some p
  | t :: rest =>
      match pool_step t p with
      | None => None
      | Some p' => pool_run rest p'
      end
  end.

(** The schedule of one goroutine making one whole first call. *)
Definition one_call (t : tid) : list tid := repeat t 9.

(** The steps a goroutine has at most left inside [call]. *)
Definition call_rank (pc : call_pc) : nat :=
  match pc with
  | DoFast => 8 | DoLock => 7 | DoCheck => 6 | HookCalled => 5
  | HookRun => 4 | DoStore => 3 | DoUnlock => 2 | DoReturn => 1
  end.

(** The steps a caller has at most left, and the invocations it has not
    yet returned from. *)
Definition caller_rank (c : caller) : nat :=
  9 * c_todo c + match c_pc c with Idle => 0 | Calling pc => call_rank pc end.

Definition caller_pending (c : caller) : nat :=
  c_todo c + match c_pc c with Idle => 0 | Calling _ => 1 end.

Definition pool_rank (p : pool) : nat := sum_list (caller_rank <$> p_callers p).

Definition pool_pending (p : pool) : nat :=
  sum_list (caller_pending <$> p_callers p).

End Once.


(** *** What holds of [once] at every moment *)

Section OnceInvariant.

Context {W : Type}.
Variable hook : W -> W.
Variable w0 : W.

(** With the mutex free, the primitive has either not fired at all or
    fired completely. *)
Definition settled (o : once (W := W)) : Prop :=
  if done o then fired o = 1 /\ called o = true
  else fired o = 0 /\ called o = false.

(** What goroutine [t] knows at each point of [call]. *)
Definition pc_ok (o : once (W := W)) (t : tid) (pc : call_pc) : Prop :=
  match pc with
  | DoFast | DoLock => True
  | DoCheck => mu o = Some t /\ settled o
  | HookCalled =>
      mu o = Some t /\ done o = false /\ fired o = 0 /\ called o = false
  | HookRun =>
      mu o = Some t /\ done o = false /\ fired o = 0 /\ called o = true
  | DoStore =>
      mu o = Some t /\ done o = false /\ fired o = 1 /\ called o = true
  | DoUnlock =>
      mu o = Some t /\ done o = true /\ fired o = 1 /\ called o = true
  | DoReturn => done o = true
  end.

(** [pcs t] is where goroutine [t] stands inside [call], if it is inside. *)
Definition once_inv (pcs : tid -> option call_pc) (o : once (W := W)) : Prop :=
  (forall t pc, pcs t = Some pc -> pc_ok o t pc)
  /\ (mu o = None -> settled o)
  /\ (forall t, mu o = Some t -> exists pc, pcs t = Some pc /\ in_cs pc = true)
  /\ (done o = true -> fired o = 1 /\ called o = true)
  /\ (called o = false -> fired o = 0)
  /\ fired o <= 1
  /\ world o = Nat.iter (fired o) hook w0.

(** Goroutine [t] moves to [v]; the others stay. *)
Definition upd {A : Type} (f : tid -> A) (t : tid) (v : A) : tid -> A :=
  fun t' => if Nat.eqb t' t then v else f t'.

(** Where the callers of a pool stand. *)
Definition caller_at (c : caller) : option call_pc :=
  match c_pc c with Calling pc => Some pc | Idle => None end.

Definition callers_pcs (l : list caller) : tid -> option call_pc :=
  fun t => match l !! t with Some c => caller_at c | None => None end.

(** The invariant of a pool: that of the primitive, and an invocation
    has returned only after the primitive was done. *)
Definition pool_inv (p : pool (W := W)) : Prop :=
  once_inv (callers_pcs (p_callers p)) (p_once p)
  /\ (0 < p_returned p -> done (p_once p) = true).

End OnceInvariant.

(** ** A producer goroutine drained by a range loop *)

(** [getFolderList] and [getAllMessageUUIDs] have one shape:
    [[
      ch := make(chan A, cap)
      go func() { err = imapClient.Call(..., ch) }()
      for m := range ch { body }
      return acc, err
    ]]
    The call sends its values, closes [ch] and returns; only then does the
    goroutine assign the returned error to the shared variable [err].
    The log lines of the two functions touch nothing that is shared and
    are left out of the steps. *)

Section Drain.

Context {A B R : Type}.

(** The capacity of the channel, the call the producer makes, what the
    call sends and returns, and the body of the loop ([None]: it panics). *)
Variable cap : nat.
Variable request : R.
Variable reply : list A * option error.
Variable body : A -> list B -> option (list B).

Inductive prod_pc : Type :=
| PCall                   (* about to make the call *)
| PSend (todo : list A)   (* inside the call *)
| PAssign                 (* the call has returned: err = ... *)
| PDone.

Inductive main_pc : Type :=
| MRange                                  (* for m := range ch *)
| MReturn                                 (* return acc, err *)
| MReturned (res : list B) (e : option error)
| MPanic.

(** [d_prod] is [None] when no goroutine was started; [d_calls] lists the
    calls made to the server. *)
Record drain : Type := mkDrain
  { d_prod : option prod_pc;
    d_main : main_pc;
    d_chan : list A;
    d_closed : bool;
    d_err : option error;
    d_acc : list B;
    d_calls : list R }.

Definition drain_start : drain :=
  mkDrain (Some PCall) MRange [] false None [] [].

Inductive drain_label : Type := Producer | Caller.

Definition drain_step (l : drain_label) (s : drain) : option drain :=
  let '(mkDrain prod main ch closed err acc calls) := s in
  match l with
  | Producer =>
      match prod with
      | Some PCall =>
          Some (mkDrain (Some (PSend (fst reply))) main ch closed err acc
                  (calls ++ [request]))
      | Some (PSend (a :: todo)) =>
          if Nat.ltb (length ch) cap
          then Some (mkDrain (Some (PSend todo)) main (ch ++ [a]) closed err acc calls)
          else None
      | Some (PSend []) =>
          Some (mkDrain (Some PAssign) main ch true err acc calls)
      | Some PAssign =>
          Some (mkDrain (Some PDone) main ch closed (snd reply) acc calls)
      | Some PDone | None => None
      end
  | Caller =>
      match main with
      | MRange =>
          match ch with
          | a :: rest =>
              match body a acc with
              | Some acc' => Some (mkDrain prod MRange rest closed err acc' calls)
              | None => Some (mkDrain prod MPanic rest closed err acc calls)
              end
          | [] =>
              if closed
              then Some (mkDrain prod MReturn ch closed err acc calls)
              else None
          end
      | MReturn => Some (mkDrain prod (MReturned acc err) ch closed err acc calls)
      | MReturned _ _ | MPanic => None
      end
  end.

Fixpoint drain_run (sched : list drain_label) (s : drain) : option drain :=
  match sched with
  | [] => Some s
  | l :: rest =>
      match drain_step l s with
      | None => None
      | Some s' => drain_run rest s'
      end
  end.

(** The loop body over a list of received values. *)
Fixpoint drain_fold (l : list A) (acc : list B) : option (list B) :=
  match l with
  | [] => Some acc
  | a :: rest =>
      match body a acc with
      | Some acc' => drain_fold rest acc'
      | None => None
      end
  end.

(** The schedule in which the caller takes each value as soon as it is
    sent and reads [err] after the producer has assigned it. *)
Definition lockstep (n : nat) : list drain_label :=
  [Producer] ++ concat (repeat [Producer; Caller] n)
  ++ [Producer; Producer; Caller; Caller].

(** The schedule in which the caller reads [err] between the close of the
    channel and the producer's assignment. *)
Definition hasty (n : nat) : list drain_label :=
  [Producer] ++ concat (repeat [Producer; Caller] n)
  ++ [Producer; Caller; Caller; Producer].

End Drain.

(** [func getFolderList(imapClient imapOps) (folders []string, err error)]. *)
Definition folderBody (m : option MailboxInfo) (folders : list string)
  : option (list string) :=
  match m with
  | Some m => Some (folders ++ [Name m])
  | None => None
  end.

Definition getFolderList (imapClient : imapOps)
  : drain (A := option MailboxInfo) (B := string) (R := string * string) :=
  drain_start.

Definition getFolderList_step (imapClient : imapOps) :=
  drain_step folderListBuffer ("", "*")%string (List imapClient "" "*") folderBody.

Definition getFolderList_run (imapClient : imapOps) :=
  drain_run folderListBuffer ("", "*")%string (List imapClient "" "*") folderBody.

(** [func getAllMessageUUIDs(mbox *imap.MailboxStatus, imapClient imapOps)
    (uids []uidExt, err error)].  [uidFolder(mbox.UidValidity)] and
    [uid(m.Uid)] turn a [uint32] into an [int], which keeps its value. *)
Definition uidBody (mbox : MailboxStatus) (m : option Message)
    (uids : list uidExt) : option (list uidExt) :=
  match m with
  | Some m => Some (uids ++ [{| folder := UidValidity mbox; msg := Uid m |}])
  | None => Some uids
  end.

Definition allMessages (mbox : MailboxStatus) : SeqSet :=
  [SeqRange 1 (Messages mbox)].

Definition getAllMessageUUIDs (mbox : MailboxStatus) (imapClient : imapOps)
  : drain (A := option Message) (B := uidExt) (R := SeqSet * list FetchItem) :=
  if Z.eqb (Messages mbox) 0 then
    mkDrain None (MReturned [] None) [] false None [] []
  else
    drain_start.

Definition getAllMessageUUIDs_run (mbox : MailboxStatus) (imapClient : imapOps) :=
  drain_run messageRetrievalBuffer
    (allMessages mbox, [FetchUid; FetchInternalDate])
    (Fetch imapClient (allMessages mbox) [FetchUid; FetchInternalDate])
    (uidBody mbox).

(** A server with one folder and three messages whose every call
    succeeds, and the same server on a connection that breaks. *)
Definition threeMessages : list (option Message) :=
  [Some {| Uid := 1; InternalDate := 0; Body := "" |};
   Some {| Uid := 2; InternalDate := 0; Body := "" |};
   Some {| Uid := 3; InternalDate := 0; Body := "" |}].

Definition exampleServer (failure : option error) : imapOps :=
  {| Login := fun _ _ => None;
     List := fun _ _ => ([Some {| Name := "INBOX" |}], failure);
     Select := fun _ _ =>
       (Some {| Flags := []; Messages := 3; UidValidity := 42 |}, None);
     Fetch := fun _ _ => (threeMessages, failure);
     UidFetch := fun _ _ =>
       {| uf_sends := threeMessages; uf_closes := true; uf_err := failure |};
     Logout := None;
     Terminate := None |}.

Definition connectionLost : error := External "connection lost".

(** *** What holds of a drained producer at every moment *)

Section DrainInvariant.

Context {A B R : Type}.
Variable request : R.
Variable reply : list A * option error.
Variable body : A -> list B -> option (list B).

(** [recvd] is what the loop has taken from the channel so far: with the
    content of the channel and what the producer has still to send it
    makes up what the call sends; the shared [err] is nil until the
    producer has assigned it. *)
Definition drain_inv_at (recvd : list A) (s : drain (A := A) (B := B) (R := R))
  : Prop :=
  match d_prod s with
  | None => False
  | Some PCall =>
      recvd = [] /\ d_chan s = [] /\ d_closed s = false
      /\ d_err s = None /\ d_calls s = []
  | Some (PSend todo) =>
      fst reply = recvd ++ d_chan s ++ todo /\ d_closed s = false
      /\ d_err s = None /\ d_calls s = [request]
  | Some PAssign =>
      fst reply = recvd ++ d_chan s /\ d_closed s = true
      /\ d_err s = None /\ d_calls s = [request]
  | Some PDone =>
      fst reply = recvd ++ d_chan s /\ d_closed s = true
      /\ d_err s = snd reply /\ d_calls s = [request]
  end
  /\ match d_main s with
     | MRange => drain_fold body recvd [] = Some (d_acc s)
     | MReturn =>
         drain_fold body recvd [] = Some (d_acc s)
         /\ d_closed s = true /\ d_chan s = []
     | MReturned res e =>
         drain_fold body recvd [] = Some res
         /\ d_closed s = true /\ d_chan s = []
         /\ (e = None \/ e = snd reply)
     | MPanic => drain_fold body recvd [] = None
     end.

Definition drain_inv (s : drain (A := A) (B := B) (R := R)) : Prop :=
  exists recvd, drain_inv_at recvd s.

End DrainInvariant.

(** What [getAllMessageUUIDs] makes of the entries the server delivers. *)
Definition uidsOf (mbox : MailboxStatus) (delivered : list (option Message))
  : list uidExt :=
  omap (fmap (fun m => {| folder := UidValidity mbox; msg := Uid m |})) delivered.

(** ** [streamingRetrieval] *)

(** The error of the first loop of [streamingRetrieval]. *)
Definition uidNotPositive : error := Errorf "detected a UID<=0, aborting".

(** [for _, uid := range uids { if uid <= 0 { return nil, nil, ... } }]. *)
Fixpoint checkUids (uids : list uid) : option error :=
  match uids with
  | [] => None
  | u :: rest => if Z.leb u 0 then Some uidNotPositive else checkUids rest
  end.

(** Where the fetch goroutine stands:
    [[
      startWg.Wait()                                   FWait
      err := imapClient.UidFetch(seqset, ..., ch)      FCall, FSend
      if err != nil {                                  FReturned
        logError(err.Error())
        errCount++                                     FLoad, FStore
      }
      already.call()                                   FOnce
    ]] *)
Inductive fetch_pc : Type :=
| FWait
| FCall
| FSend (todo : list (option Message))
| FReturned
| FLoad
| FStore (r : Z)
| FOnce (pc : call_pc)
| FDone.

(** Where the translation goroutine stands:
    [[
      defer close(translatedMessageChan)               TClose
      for !already.called {                            TLoop
        if interrupted() {                             TPoll
          errCount++                                   TLoad, TStore
          already.call()                               TOnce
          logWarning(...)
        } else {
          msg := <-orgMessageChan                      TRecv
          if msg != nil {
            translatedMessageChan <- msg               TSend
          }
        }
      }
    ]] *)
Inductive trans_pc : Type :=
| TLoop
| TPoll
| TLoad
| TStore (r : Z)
| TOnce (pc : call_pc)
| TRecv
| TSend (m : Message)
| TClose
| TDone.

(** The two goroutines, the variables they share and the two channels.
    [p_already] wraps [wg.Done()], so its [world] is the counter of [wg].
    The last six fields record what has happened and are not read by the
    program: the calls of [UidFetch], what [UidFetch] has handed over,
    what the consumer has taken from the returned channel, whether a poll
    of [interrupted] has answered true, and how often each goroutine has
    completed [errCount++]. *)
Record pipeline : Type := mkPipeline
  { p_already : once (W := Z);
    p_errCount : Z;
    p_started : bool;
    p_fetch : fetch_pc;
    p_trans : trans_pc;
    p_orgClosed : bool;
    p_out : list Message;
    p_outClosed : bool;
    p_calls : list (SeqSet * list FetchItem);
    p_delivered : list (option Message);
    p_consumed : list Message;
    p_cancelled : bool;
    p_tIncs : nat;
    p_fIncs : nat }.

(** What moves next: the set-up releasing [startWg], the fetch goroutine,
    the translation goroutine (with the answer [interrupted()] gives if
    this step polls it), or the consumer of the returned channel. *)
Inductive label : Type :=
| LStart
| LFetch
| LTrans (interrupted : bool)
| LConsume.

(** The goroutine numbers used with the mutex of [already]. *)
Definition fetchTid : tid := 0.
Definition transTid : tid := 1.

(** [wg.Done()]. *)
Definition wgDone (counter : Z) : Z := (counter - 1)%Z.

Section Retrieval.

(** [intToUint32] is a helper of the package that is defined in another
    file; the retrieval does not depend on what it computes. *)
Variable intToUint32 : Z -> Z.
Variable imapClient : imapOps.
Variable uids : list uid.

(** [seqset := new(imap.SeqSet)] filled by [seqset.AddNum] in a loop. *)
Definition seqsetOf : SeqSet := map (fun u => SeqNum (intToUint32 u)) uids.

Definition retrievalItems : list FetchItem :=
  [FetchUid; FetchInternalDate; FetchRFC822].

(** What [UidFetch] does when it is called. *)
Definition uidFetchReply : UidFetchReply :=
  UidFetch imapClient seqsetOf retrievalItems.

Definition pipeline_step (l : label) (p : pipeline) : option pipeline :=
  let '(mkPipeline o ec st f t oc out ocl calls dl cs cn ti fi) := p in
  match l with
  | LStart =>
      if st then None
      else Some (mkPipeline o ec true f t oc out ocl calls dl cs cn ti fi)
  | LConsume =>
      match out with
      | m :: rest =>
          Some (mkPipeline o ec st f t oc rest ocl calls dl (cs ++ [m]) cn ti fi)
      | [] => None
      end
  | LFetch =>
      match f with
      | FWait =>
          if st
          then Some (mkPipeline o ec st FCall t oc out ocl calls dl cs cn ti fi)
          else None
      | FCall =>
          Some (mkPipeline o ec st (FSend (uf_sends uidFetchReply)) t oc out ocl
                  (calls ++ [(seqsetOf, retrievalItems)]) dl cs cn ti fi)
      | FSend (m :: todo) =>
          (* orgMessageChan has no buffer: the send needs the receiver *)
          match t with
          | TRecv =>
              let t' := match m with Some msg => TSend msg | None => TLoop end in
              Some (mkPipeline o ec st (FSend todo) t' oc out ocl calls
                      (dl ++ [m]) cs cn ti fi)
          | _ => None
          end
      | FSend [] =>
          Some (mkPipeline o ec st FReturned t (uf_closes uidFetchReply) out ocl
                  calls dl cs cn ti fi)
      | FReturned =>
          let f' := match uf_err uidFetchReply with
                    | Some _ => FLoad
                    | None => FOnce DoFast
                    end in
          Some (mkPipeline o ec st f' t oc out ocl calls dl cs cn ti fi)
      | FLoad =>
          Some (mkPipeline o ec st (FStore ec) t oc out ocl calls dl cs cn ti fi)
      | FStore r =>
          Some (mkPipeline o (r + 1)%Z st (FOnce DoFast) t oc out ocl calls dl cs
                  cn ti (S fi))
      | FOnce DoReturn =>
          Some (mkPipeline o ec st FDone t oc out ocl calls dl cs cn ti fi)
      | FOnce pc =>
          match call_step wgDone fetchTid pc o with
          | Some (pc', o') =>
              Some (mkPipeline o' ec st (FOnce pc') t oc out ocl calls dl cs cn ti fi)
          | None => None
          end
      | FDone => None
      end
  | LTrans b =>
      match t with
      | TLoop =>
          let t' := if called o then TClose else TPoll in
          Some (mkPipeline o ec st f t' oc out ocl calls dl cs cn ti fi)
      | TPoll =>
          if b
          then Some (mkPipeline o ec st f TLoad oc out ocl calls dl cs true ti fi)
          else Some (mkPipeline o ec st f TRecv oc out ocl calls dl cs cn ti fi)
      | TLoad =>
          Some (mkPipeline o ec st f (TStore ec) oc out ocl calls dl cs cn ti fi)
      | TStore r =>
          Some (mkPipeline o (r + 1)%Z st f (TOnce DoFast) oc out ocl calls dl cs
                  cn (S ti) fi)
      | TOnce DoReturn =>
          Some (mkPipeline o ec st f TLoop oc out ocl calls dl cs cn ti fi)
      | TOnce pc =>
          match call_step wgDone transTid pc o with
          | Some (pc', o') =>
              Some (mkPipeline o' ec st f (TOnce pc') oc out ocl calls dl cs cn ti fi)
          | None => None
          end
      | TRecv =>
          (* a closed channel yields nil at once; an open one waits for
             the sender, whose step hands the value over *)
          if oc
          then Some (mkPipeline o ec st f TLoop oc out ocl calls dl cs cn ti fi)
          else None
      | TSend m =>
          if Nat.ltb (length out) messageRetrievalBuffer
          then Some (mkPipeline o ec st f TLoop oc (out ++ [m]) ocl calls dl cs
                       cn ti fi)
          else None
      | TClose =>
          Some (mkPipeline o ec st f TDone oc out true calls dl cs cn ti fi)
      | TDone => None
      end
  end.

Fixpoint pipeline_run (sched : list label) (p : pipeline) : option pipeline :=
  match sched with
  | [] => Some p
  | l :: rest =>
      match pipeline_step l p with
      | None => None
      | Some p' => pipeline_run rest p'
      end
  end.

(** What [streamingRetrieval] leaves behind when it returns: only the
    error, or the two goroutines with the channel and the counter it
    hands to its caller. *)
Inductive retrieval : Type :=
| Refused (err : error)          (* return nil, nil, err *)
| Streaming (p : pipeline).      (* return translatedMessageChan, &errCount, nil *)

(** The pipeline right after [wg.Add(1)] and the two [go] statements;
    [wg] is the counter of the wait group before the call. *)
Definition pipeline_start (wg : Z) : pipeline :=
  mkPipeline (newOnce (wg + 1)%Z) 0%Z false FWait TLoop false [] false
    [] [] [] false 0 0.

(** [func streamingRetrieval(imapClient imapOps, uids []uid,
    wg, startWg *sync.WaitGroup, interrupted func() bool)]. *)
Definition streamingRetrieval (wg : Z) : retrieval :=
  match checkUids uids with
  | Some err => Refused err
  | None => Streaming (pipeline_start wg)
  end.

(** A refused retrieval has no goroutine that could move. *)
Definition retrieval_run (sched : list label) (r : retrieval) : option retrieval :=
  match r with
  | Refused err =>
      match sched with [] => Some (Refused err) | _ :: _ => None end
  | Streaming p => option_map Streaming (pipeline_run sched p)
  end.

(** The calls of [UidFetch] made so far, and the entries that have left
    the translation goroutine through the returned channel. *)
Definition uidFetchCalls (r : retrieval) : list (SeqSet * list FetchItem) :=
  match r with Refused _ => [] | Streaming p => p_calls p end.

Definition output (p : pipeline) : list Message := p_consumed p ++ p_out p.

End Retrieval.

(** *** What holds of the pipeline at every moment *)

Section RetrievalInvariant.

Variable intToUint32 : Z -> Z.
Variable imapClient : imapOps.
Variable uids : list uid.
Variable wg : Z.

(** Where the two goroutines stand inside [already.call()]. *)
Definition pipeline_pcs (p : pipeline) : tid -> option call_pc :=
  fun t =>
    match t with
    | 0 => match p_fetch p with FOnce pc => Some pc | _ => None end
    | 1 => match p_trans p with TOnce pc => Some pc | _ => None end
    | _ => None
    end.

(** [UidFetch] is called once; what it has handed over and what it has
    still to send make up what it sends; the channel is closed by its
    return, if at all. *)
Definition fetch_inv (p : pipeline) : Prop :=
  let reply := uidFetchReply intToUint32 imapClient uids in
  let call := (seqsetOf intToUint32 uids, retrievalItems) in
  match p_fetch p with
  | FWait | FCall =>
      p_delivered p = [] /\ p_calls p = [] /\ p_orgClosed p = false
  | FSend todo =>
      uf_sends reply = p_delivered p ++ todo /\ p_calls p = [call]
      /\ p_orgClosed p = false
  | _ =>
      uf_sends reply = p_delivered p /\ p_calls p = [call]
      /\ p_orgClosed p = uf_closes reply
  end.

(** Every entry handed over that is not nil is with the consumer, in the
    returned channel, or about to be sent into it; the channel holds at
    most what its buffer takes and is closed exactly when the translation
    goroutine has ended. *)
Definition out_inv (p : pipeline) : Prop :=
  omap id (p_delivered p)
  = p_consumed p ++ p_out p
    ++ match p_trans p with TSend m => [m] | _ => [] end
  /\ length (p_out p) <= messageRetrievalBuffer
  /\ (p_outClosed p = true <-> p_trans p = TDone).

(** [errCount] against the completed increments. *)
Definition count_inv (p : pipeline) : Prop :=
  let reply := uidFetchReply intToUint32 imapClient uids in
  let total := Z.of_nat (p_tIncs p + p_fIncs p) in
  (0 <= p_errCount p <= total)%Z
  /\ (0 < p_tIncs p + p_fIncs p -> (1 <= p_errCount p)%Z)
  /\ match p_fetch p with FStore r => (0 <= r <= total)%Z | _ => True end
  /\ match p_trans p with TStore r => (0 <= r <= total)%Z | _ => True end
  /\ match p_fetch p with
     | FOnce _ | FDone =>
         p_fIncs p = match uf_err reply with Some _ => 1 | None => 0 end
     | FLoad | FStore _ => p_fIncs p = 0 /\ uf_err reply <> None
     | _ => p_fIncs p = 0
     end.

(** The translation goroutine increments [errCount] once, after the poll
    that answered true, and leaves its loop only when [called] is set. *)
Definition cancel_inv (p : pipeline) : Prop :=
  match p_trans p with
  | TLoad | TStore _ => p_cancelled p = true /\ p_tIncs p = 0
  | TOnce _ => p_cancelled p = true /\ p_tIncs p = 1
  | TLoop =>
      if p_cancelled p then p_tIncs p = 1 /\ done (p_already p) = true
      else p_tIncs p = 0
  | TClose | TDone =>
      called (p_already p) = true
      /\ if p_cancelled p then p_tIncs p = 1 /\ done (p_already p) = true
         else p_tIncs p = 0
  | TPoll | TRecv | TSend _ => p_cancelled p = false /\ p_tIncs p = 0
  end.

Definition pipeline_inv (p : pipeline) : Prop :=
  once_inv wgDone (wg + 1)%Z (pipeline_pcs p) (p_already p)
  /\ fetch_inv p /\ out_inv p /\ count_inv p /\ cancel_inv p.




(** The steps of a schedule that are taken by one of the two goroutines. *)
Definition isGoroutine (l : label) : bool :=
  match l with LFetch | LTrans _ => true | LStart | LConsume => false end.

Fixpoint goroutineSteps (sched : list label) : nat :=
  match sched with
  | [] => 0
  | l :: rest => (if isGoroutine l then 1 else 0) + goroutineSteps rest
  end.

End RetrievalInvariant.


(** ** Example runs of the pipeline *)

(** The first message is passed on, then a poll of [interrupted] answers
    true and the translation goroutine runs to its end. *)
Definition cancelSchedule : list label :=
  [LStart; LFetch; LFetch; LTrans false; LTrans false; LFetch;
   LTrans false; LTrans false; LTrans true]
  ++ repeat (LTrans false) 12.

(** Two messages are passed on and the consumer takes the first. *)
Definition twoMessagesSchedule : list label :=
  [LStart; LFetch; LFetch; LTrans false; LTrans false; LFetch;
   LTrans false; LTrans false; LTrans false; LFetch; LTrans false; LConsume].

Definition afterSchedule (uids : list uid) (sched : list label) : pipeline :=
  match pipeline_run (fun n => n) (exampleServer None) uids sched
          (pipeline_start 0)
  with
  | Some p => p
  | None => pipeline_start 0
  end.

Definition afterCancel : pipeline :=
  Eval vm_compute in afterSchedule [1; 2; 3]%Z cancelSchedule.

Definition afterTwoOfThree : pipeline :=
  Eval vm_compute in afterSchedule [1; 2; 3]%Z twoMessagesSchedule.

Definition afterTwoOfOne : pipeline :=
  Eval vm_compute in afterSchedule [1]%Z twoMessagesSchedule.




(* ================================================================= *)
(** * Part I, continued: the rest of the file *)
(* ================================================================= *)

(** ** Logging in: what the log may say *)

(** [serverWithPort := fmt.Sprintf("%s:%d", config.Server, config.Port)]. *)
Definition serverWithPort (config : IMAPConfig) : string :=
  (Server config ++ ":" ++ itoa (Port config))%string.





(** ** Selecting a folder *)






(** A client that connects and whose every call succeeds, on a network
    where only the loopback address answers. *)
Definition loopbackDial (addr : string) : imapOps + error :=
  if hasPrefix addr "127.0.0.1:" then inl (exampleServer None)
  else inr (External "connection refused").

(** A configuration that asks for an insecure connection to a host that
    is not the loopback address, and one that asks for it to the loopback
    address. *)
Definition remoteInsecure : IMAPConfig :=
  {| Server := "203.0.113.5"; Port := 143; User := "alice";
     Password := "secret"; Insecure := true |}.

Definition localInsecure : IMAPConfig :=
  {| Server := "127.0.0.1"; Port := 143; User := "alice";
     Password := "secret"; Insecure := true |}.

(** ** How far a drained producer is from its end *)

Section DrainRank.

Context {A B R : Type}.
Variable reply : list A * option error.

(** The steps the producer has left, the values it has still to send, and
    the steps the caller has at most left. *)
Definition prod_rank (prod : option (prod_pc (A := A))) : nat :=
  match prod with
  | Some PCall => length (fst reply) + 3
  | Some (PSend todo) => length todo + 2
  | Some PAssign => 1
  | Some PDone | None => 0
  end.

Definition unsent (prod : option (prod_pc (A := A))) : nat :=
  match prod with
  | Some PCall => length (fst reply)
  | Some (PSend todo) => length todo
  | _ => 0
  end.

Definition main_rank (s : drain (A := A) (B := B) (R := R)) : nat :=
  match d_main s with
  | MRange => length (d_chan s) + unsent (d_prod s) + 2
  | MReturn => 1
  | MReturned _ _ | MPanic => 0
  end.

Definition drain_rank (s : drain (A := A) (B := B) (R := R)) : nat :=
  prod_rank (d_prod s) + main_rank s.

(** The caller is still in its loop or about to return. *)
Definition drain_running (s : drain (A := A) (B := B) (R := R)) : Prop :=
  d_main s = MRange \/ d_main s = MReturn.

End DrainRank.

(** The state of [getAllMessageUUIDs] on the example server when its loop
    has ended and it is about to return, with the producer goroutine done
    and with the producer goroutine still to assign its error. *)
Definition exampleMailbox : MailboxStatus :=
  {| Flags := []; Messages := 3; UidValidity := 42 |}.

Definition beforeReturn (failure : option error) (sched : list drain_label)
  : drain (A := option Message) (B := uidExt) (R := SeqSet * list FetchItem) :=
  match getAllMessageUUIDs_run exampleMailbox (exampleServer failure) sched
          (getAllMessageUUIDs exampleMailbox (exampleServer failure))
  with
  | Some s => s
  | None => drain_start
  end.

Definition lockstepBeforeReturn : list drain_label :=
  [Producer] ++ concat (repeat [Producer; Caller] 3)
  ++ [Producer; Producer; Caller].

Definition hastyBeforeReturn : list drain_label :=
  [Producer] ++ concat (repeat [Producer; Caller] 3) ++ [Producer; Caller].

Definition readyProducerDone :=
  Eval vm_compute in beforeReturn (Some connectionLost) lockstepBeforeReturn.

Definition readyProducerLate :=
  Eval vm_compute in beforeReturn (Some connectionLost) hastyBeforeReturn.

(** A server whose [List] sends a nil pointer after the first folder. *)
Definition nilListServer : imapOps :=
  {| Login := fun _ _ => None;
     List := fun _ _ =>
       ([Some {| Name := "INBOX" |}; None; Some {| Name := "Sent" |}], None);
     Select := Select (exampleServer None);
     Fetch := Fetch (exampleServer None);
     UidFetch := UidFetch (exampleServer None);
     Logout := None;
     Terminate := None |}.

(** ** More of what holds of the pipeline at every moment *)

Section RetrievalInvariantMore.

Variable intToUint32 : Z -> Z.
Variable imapClient : imapOps.
Variable uids : list uid.
Variable wg : Z.

(** The fetch goroutine waits for [startWg]; [called] is set by the fetch
    goroutine inside [already.call()] or after a poll of [interrupted]
    has answered true; the fetch goroutine ends only when [already] is
    done. *)
Definition barrier_inv (p : pipeline) : Prop :=
  p_started p = false -> p_fetch p = FWait.

Definition origin_inv (p : pipeline) : Prop :=
  called (p_already p) = true ->
  p_cancelled p = true
  \/ match p_fetch p with FOnce _ | FDone => True | _ => False end.

Definition fdone_inv (p : pipeline) : Prop :=
  p_fetch p = FDone -> done (p_already p) = true.

Definition pipeline_inv_more (p : pipeline) : Prop :=
  pipeline_inv intToUint32 imapClient uids wg p
  /\ barrier_inv p /\ origin_inv p /\ fdone_inv p.

(** The schedule of a retrieval that nobody interrupts: each entry is
    handed over, passed on if it is not nil and taken by the consumer;
    then [UidFetch] returns, the fetch goroutine counts its error and
    calls [already.call()], and the translation goroutine sees [called]
    and closes the channel. *)
Definition entrySchedule (m : option Message) : list label :=
  match m with
  | Some _ => [LTrans false; LTrans false; LFetch; LTrans false; LConsume]
  | None => [LTrans false; LTrans false; LFetch]
  end.

Definition quietSchedule (r : UidFetchReply) : list label :=
  [LStart; LFetch; LFetch]
  ++ concat (map entrySchedule (uf_sends r))
  ++ [LFetch; LFetch]
  ++ match uf_err r with Some _ => [LFetch; LFetch] | None => [] end
  ++ repeat LFetch 8
  ++ [LTrans false; LTrans false].

End RetrievalInvariantMore.

(* ================================================================= *)
(** * Part II: properties *)
(* ================================================================= *)

(** ** Decimal rendering and the string form of [uidExt] *)

Lemma itoa_inj (a b : Z) : itoa a = itoa b -> a = b.
Proof.
  unfold itoa; intros H.
  apply DecimalZ.to_int_inj.
  assert (Hs : Some (Z.to_int a) = Some (Z.to_int b))
    by (rewrite <- !NilEmpty.isi; now rewrite H).
  now injection Hs.
Qed.

Lemma string_of_uint_digits (d : Decimal.uint) :
  indexByte (NilEmpty.string_of_uint d) "/" = None.
Proof. induction d; simpl; try rewrite IHd; reflexivity. Qed.

Lemma itoa_no_slash (n : Z) : indexByte (itoa n) "/" = None.
Proof.
  unfold itoa; destruct (Z.to_int n); simpl;
    rewrite ?string_of_uint_digits; reflexivity.
Qed.

(** Two strings cut at their first slash agree piece by piece. *)
Lemma append_slash_inj (a c b d : string) :
  indexByte a "/" = None -> indexByte c "/" = None ->
  (a ++ "/" ++ b)%string = (c ++ "/" ++ d)%string -> a = c /\ b = d.
Proof.
  revert c; induction a as [|x a IH]; intros [|y c]; simpl; intros Ha Hc E.
  - now injection E.
  - injection E as <- _. discriminate Hc.
  - injection E as -> _. discriminate Ha.
  - injection E as -> E.
    destruct (Ascii.eqb y "/"); [discriminate|].
    destruct (indexByte a "/") eqn:Ea; [discriminate|].
    destruct (indexByte c "/") eqn:Ec; [discriminate|].
    destruct (IH c eq_refl Ec E) as [-> ->]. split; reflexivity.
Qed.

Lemma uidExt_String_inj (u v : uidExt) :
  uidExt_String u = uidExt_String v -> u = v.
Proof.
  destruct u as [fu mu], v as [fv mv]; unfold uidExt_String; simpl; intros E.
  apply append_slash_inj in E; try apply itoa_no_slash.
  destruct E as [Ef Em]. apply itoa_inj in Ef, Em. now subst.
Qed.

(** C10: two extended identifiers with a positive message id and a
    nonnegative folder marker render to the same "<folder>/<msg>" string
    exactly when they are the same identifier. *)
Theorem uidExt_String_dedup_key (u v : uidExt) :
  (0 < msg u)%Z -> (0 <= folder u)%Z -> (0 < msg v)%Z -> (0 <= folder v)%Z ->
  uidExt_String u = uidExt_String v <-> u = v.
Proof.
  intros _ _ _ _; split; [apply uidExt_String_inj | now intros ->].
Qed.

Lemma uidExt_String_dedup_key_witness :
  (uidExt_String (mkUidExt 42 1) = "42/1"%string) /\
  (uidExt_String (mkUidExt 42 1) = uidExt_String (mkUidExt 4 21)
   <-> mkUidExt 42 1 = mkUidExt 4 21).
Proof.
  split; [reflexivity|].
  apply (uidExt_String_dedup_key (mkUidExt 42 1) (mkUidExt 4 21));
    simpl; lia.
Defined.

(** ** Connecting and logging in *)

Lemma hasPrefix_loopback_host (rest host port : string) :
  splitHostPort ("127.0.0.1:" ++ rest) = Some (host, port) -> host = loopback.
Proof.
  unfold splitHostPort; simpl.
  destruct (lastIndexByte rest ":") as [j|]; simpl.
  - intros H; discriminate H.
  - destruct (_ || _); intros [= <- _]; reflexivity.
Qed.

Lemma hasPrefix_split (s p : string) :
  hasPrefix s p = true -> exists rest, s = (p ++ rest)%string.
Proof.
  unfold hasPrefix; revert s; induction p as [|c p IH]; intros s H.
  - exists s; reflexivity.
  - destruct s as [|d s]; simpl in H; [discriminate|].
    destruct (ascii_dec c d) as [->|]; [|discriminate].
    destruct (IH s H) as [rest ->]. exists rest; reflexivity.
Qed.

Lemma hasPrefix_append (p rest : string) : hasPrefix (p ++ rest) p = true.
Proof.
  unfold hasPrefix; induction p as [|c p IH]; simpl.
  - destruct rest; reflexivity.
  - destruct (ascii_dec c c); [exact IH | congruence].
Qed.

Section SessionFacts.

Variable clientDial : string -> imapOps + error.
Variable clientDialTLS : string -> imapOps + error.

(** C5: with [insecure] set, an address whose host is not the loopback
    address is refused with the policy error and nothing is dialled; the
    address "127.0.0.1:<port>" is dialled in the plain; without [insecure]
    every address is dialled over TLS. *)
Theorem newImapClient_policy :
  (forall addr host port,
      splitHostPort addr = Some (host, port) -> host <> loopback ->
      newImapClient clientDial clientDialTLS addr true
      = ([], inr (insecureNotAllowed addr)))
  /\ (forall port,
      let addr := ("127.0.0.1:" ++ port)%string in
      newImapClient clientDial clientDialTLS addr true
      = ([EvLog LvlWarning "using insecure connection to locahost"; EvDial addr],
         clientDial addr))
  /\ (forall addr,
      newImapClient clientDial clientDialTLS addr false
      = ([EvDialTLS addr], clientDialTLS addr)).
Proof.
  split; [|split].
  - intros addr host port Hs Hne. unfold newImapClient; simpl.
    destruct (hasPrefix addr "127.0.0.1:") eqn:Hp; [|reflexivity].
    apply hasPrefix_split in Hp as [rest ->].
    apply hasPrefix_loopback_host in Hs. contradiction.
  - intros port addr. unfold newImapClient, addr; cbn [negb].
    rewrite (hasPrefix_append "127.0.0.1:" port). reflexivity.
  - intros addr. reflexivity.
Qed.

(** C8: with an empty password [authenticateClient] returns the
    "password not set" error after logging it; the trace holds no
    connection attempt and no [Login]. *)
Theorem authenticateClient_empty_password (server user : string) (port : Z)
    (insecure : bool) :
  let config := {| Server := server; Port := port; User := user;
                   Password := ""; Insecure := insecure |} in
  authenticateClient clientDial clientDialTLS config
  = ([EvLog LvlError "empty password detected"], inr passwordNotSet)
  /\ filter (fun e => isDial e || isLogin e)
       (fst (authenticateClient clientDial clientDialTLS config)) = [].
Proof. split; reflexivity. Qed.

End SessionFacts.

Lemma newImapClient_policy_witness :
  splitHostPort "203.0.113.5:143" = Some ("203.0.113.5", "143")%string
  /\ newImapClient unreachableDial unreachableDial "203.0.113.5:143" true
     = ([], inr (insecureNotAllowed "203.0.113.5:143")).
Proof.
  split; [reflexivity|].
  apply (proj1 (newImapClient_policy unreachableDial unreachableDial)
           _ "203.0.113.5"%string "143"%string);
    [reflexivity | discriminate].
Defined.

(** ** The single-fire primitive *)

Section OnceFacts.

Context {W : Type}.
Variable hook : W -> W.
Variable w0 : W.

Lemma upd_same {A : Type} (f : tid -> A) t v : upd f t v t = v.
Proof. unfold upd. now rewrite Nat.eqb_refl. Qed.

Lemma upd_other {A : Type} (f : tid -> A) t t' v : t' <> t -> upd f t v t' = f t'.
Proof. unfold upd. intros H. apply Nat.eqb_neq in H. now rewrite H. Qed.

Lemma once_inv_ext (pcs pcs' : tid -> option call_pc) o :
  (forall t, pcs' t = pcs t) -> once_inv hook w0 pcs o -> once_inv hook w0 pcs' o.
Proof.
  intros E (H1 & H2 & H3 & H4).
  split; [|split; [|split]]; auto.
  - intros t pc Hp. rewrite E in Hp. auto.
  - intros t Ht. destruct (H3 t Ht) as (pc & Hp & Hc). exists pc. now rewrite E.
Qed.

Lemma once_inv_init : once_inv hook w0 (fun _ => None) (newOnce w0).
Proof.
  unfold once_inv, newOnce, settled; simpl.
  repeat split; try discriminate; auto.
Qed.

(** A step inside [call] keeps the invariant. *)
Lemma once_inv_step pcs o t pc pc' o' :
  once_inv hook w0 pcs o -> pcs t = Some pc ->
  call_step hook t pc o = Some (pc', o') ->
  once_inv hook w0 (upd pcs t (Some pc')) o'.
Proof.
  intros (Hok & Hfree & Hheld & Hdone & Hcalled & Hle & Hw) Hpc Hstep.
  pose proof (Hok t pc Hpc) as Hme.
  assert (Hoth : forall t' pc2, t' <> t -> pcs t' = Some pc2 ->
                   in_cs pc2 = true -> mu o = Some t').
  { intros t' pc2 _ Hp Hc. specialize (Hok t' pc2 Hp).
    destruct pc2; simpl in Hc, Hok; try discriminate; tauto. }
  assert (Hnot : forall t' pc2, t' <> t -> mu o = Some t ->
                   pcs t' = Some pc2 -> in_cs pc2 = false).
  { intros t' pc2 Hne Hmu Hp. destruct (in_cs pc2) eqn:Hc; [|reflexivity].
    specialize (Hoth t' pc2 Hne Hp Hc). congruence. }
  unfold once_inv.
  destruct pc; simpl in Hstep, Hme; try discriminate;
    try (destruct (mu o) eqn:Hmu0; [discriminate|]);
    injection Hstep as <- <-; simpl;
    (split; [|split; [|split; [|split; [|split; [|split]]]]]);
    try (intros t' pc2; destruct (Nat.eq_dec t' t) as [->|Hne];
         [rewrite upd_same; intros [= <-]
         |rewrite (upd_other _ _ _ _ Hne); intros Hp;
          pose proof (Hok t' pc2 Hp) as Hq;
          try pose proof (Hoth t' pc2 Hne Hp) as Hq2;
          try pose proof (Hnot t' pc2 Hne) as Hq3]);
    try (intros t' Hmu; destruct (Nat.eq_dec t' t) as [->|Hne];
         [rewrite upd_same|rewrite (upd_other _ _ _ _ Hne)]).
  all: unfold settled in *; simpl in *.
  all: try (destruct (done o) eqn:Hd; simpl; intuition (try congruence; try lia)).
  all: try (destruct pc2; simpl in *; intuition (try congruence; try lia)).
  all: try (eexists; split; reflexivity).
  all: try (apply Hheld; assumption).
  all: try (exfalso; destruct (Hheld _ Hmu) as (pc & Hp & Hc);
            rewrite Hpc in Hp; injection Hp as <-; discriminate).
  all: unfold settled in *; simpl in *; intuition (try congruence; try lia).
Qed.


Lemma once_inv_enter pcs o t :
  once_inv hook w0 pcs o -> pcs t = None ->
  once_inv hook w0 (upd pcs t (Some DoFast)) o.
Proof.
  intros (Hok & Hfree & Hheld & Hrest) Hpc.
  split; [|split; [|split]]; auto.
  - intros t' pc. destruct (Nat.eq_dec t' t) as [->|Hne].
    + rewrite upd_same. intros [= <-]. exact I.
    + rewrite upd_other by assumption. apply Hok.
  - intros t' Hmu. destruct (Hheld t' Hmu) as (pc & Hp & Hc).
    exists pc. split; [|assumption].
    rewrite upd_other; [assumption | congruence].
Qed.

Lemma once_inv_leave pcs o t :
  once_inv hook w0 pcs o -> pcs t = Some DoReturn ->
  once_inv hook w0 (upd pcs t None) o.
Proof.
  intros (Hok & Hfree & Hheld & Hrest) Hpc.
  split; [|split; [|split]]; auto.
  - intros t' pc. destruct (Nat.eq_dec t' t) as [->|Hne].
    + rewrite upd_same. discriminate.
    + rewrite upd_other by assumption. apply Hok.
  - intros t' Hmu. destruct (Hheld t' Hmu) as (pc & Hp & Hc).
    exists pc. split; [|assumption].
    rewrite upd_other; [assumption|].
    intros ->. rewrite Hpc in Hp. injection Hp as <-. discriminate.
Qed.

Lemma call_step_called t pc o pc' o' :
  call_step hook t pc o = Some (pc', o') ->
  called o = true -> called o' = true.
Proof.
  destruct pc; simpl; try discriminate;
    try (destruct (mu o); [discriminate|]);
    intros [= <- <-]; simpl; auto.
Qed.

Lemma callers_pcs_insert (l : list caller) t c c' t' :
  l !! t = Some c ->
  callers_pcs (<[t := c']> l) t' = upd (callers_pcs l) t (caller_at c') t'.
Proof.
  intros Hl. unfold callers_pcs.
  destruct (Nat.eq_dec t' t) as [->|Hne].
  - rewrite upd_same, list_lookup_insert_eq; [reflexivity|].
    eapply lookup_lt_Some; eassumption.
  - rewrite upd_other by assumption.
    rewrite list_lookup_insert_ne by congruence. reflexivity.
Qed.

Lemma pool_inv_init todo : pool_inv hook w0 (pool_init w0 todo).
Proof.
  split; simpl; [|lia].
  eapply once_inv_ext; [|apply once_inv_init].
  intros t. unfold callers_pcs. rewrite list_lookup_fmap.
  destruct (_ !! _); reflexivity.
Qed.

Lemma pool_inv_step t p p' :
  pool_inv hook w0 p -> pool_step hook t p = Some p' -> pool_inv hook w0 p'.
Proof.
  intros [Hinv Hret]. unfold pool_step.
  destruct (p_callers p !! t) as [c|] eqn:Hl; [|discriminate].
  assert (Hat : callers_pcs (p_callers p) t = caller_at c)
    by (unfold callers_pcs; now rewrite Hl).
  destruct c as [[|pc] todo]; unfold caller_at in Hat; simpl in Hat |- *.
  - destruct todo as [|k]; [discriminate|]. intros [= <-].
    split; simpl; [|assumption].
    eapply once_inv_ext; [intros; eapply callers_pcs_insert; eassumption|].
    simpl. unfold caller_at; simpl. now apply once_inv_enter.
  - intros Hstep.
    assert (Hcase :
      (pc = DoReturn /\ p' = {| p_once := p_once p;
            p_callers := <[t := mkCaller Idle todo]> (p_callers p);
            p_returned := S (p_returned p) |})
      \/ (exists pc' o', call_step hook t pc (p_once p) = Some (pc', o')
            /\ p' = {| p_once := o';
                 p_callers := <[t := mkCaller (Calling pc') todo]> (p_callers p);
                 p_returned := p_returned p |})).
    { destruct pc; cbv beta iota in Hstep;
        try (left; split; [reflexivity|congruence]);
        right;
        (destruct (call_step _ _ _ _) as [[pc' o']|];
         [exists pc', o'; split; [reflexivity|congruence] | discriminate]). }
    destruct Hcase as [[-> ->]|(pc' & o' & Hc & ->)]; split; simpl.
    + eapply once_inv_ext; [intros; eapply callers_pcs_insert; eassumption|].
      now apply once_inv_leave.
    + intros _. destruct Hinv as (Hok & _). apply (Hok t DoReturn Hat).
    + eapply once_inv_ext; [intros; eapply callers_pcs_insert; eassumption|].
      eapply once_inv_step; eassumption.
    + intros Hpos. specialize (Hret Hpos).
      assert (Hnew : once_inv hook w0 (upd (callers_pcs (p_callers p)) t (Some pc')) o')
        by (eapply once_inv_step; eassumption).
      clear Hnew. revert Hc Hret. clear.
      destruct pc; simpl; try discriminate;
        try (destruct (mu (p_once p)); [discriminate|]);
        intros [= <- <-]; simpl; auto.
Qed.

Lemma pool_inv_run sched p p' :
  pool_inv hook w0 p -> pool_run hook sched p = Some p' -> pool_inv hook w0 p'.
Proof.
  revert p; induction sched as [|t sched IH]; simpl; intros p Hinv.
  - now intros [= <-].
  - destruct (pool_step hook t p) as [q|] eqn:Hs; [|discriminate].
    apply IH. eapply pool_inv_step; eassumption.
Qed.

Lemma pool_step_called t p p' :
  pool_step hook t p = Some p' ->
  called (p_once p) = true -> called (p_once p') = true.
Proof.
  unfold pool_step.
  destruct (p_callers p !! t) as [[[|pc] todo]|]; simpl; [| |discriminate].
  - destruct todo; [discriminate|]. now intros [= <-].
  - destruct pc; try (destruct (call_step _ _ _ _) as [[pc' o']|] eqn:Hc;
      [|discriminate]; intros [= <-]; simpl;
      eapply call_step_called; eassumption).
    now intros [= <-].
Qed.

Lemma pool_run_called sched p p' :
  pool_run hook sched p = Some p' ->
  called (p_once p) = true -> called (p_once p') = true.
Proof.
  revert p; induction sched as [|t sched IH]; simpl; intros p.
  - now intros [= <-].
  - destruct (pool_step hook t p) as [q|] eqn:Hs; [|discriminate].
    intros Hr Hc. apply (IH q Hr). eapply pool_step_called; eassumption.
Qed.

(** *** Every invocation returns *)

Lemma sum_list_insert (w : caller -> nat) (l : list caller) t c c' :
  l !! t = Some c ->
  sum_list (w <$> <[t := c']> l) + w c = sum_list (w <$> l) + w c'.
Proof.
  revert t; induction l as [|x l IH]; intros [|t]; csimpl; try discriminate.
  - intros [= ->]. lia.
  - intros Hl. specialize (IH t Hl). lia.
Qed.

Lemma sum_list_positive (w : caller -> nat) (l : list caller) :
  0 < sum_list (w <$> l) -> exists t c, l !! t = Some c /\ 0 < w c.
Proof.
  induction l as [|x l IH]; csimpl; [lia|]. intros Hpos.
  destruct (w x) as [|k] eqn:Hx.
  - destruct (IH Hpos) as (t & c & Hl & Hc). exists (S t), c. auto.
  - exists 0, x. simpl. split; [reflexivity | lia].
Qed.

Lemma pool_pending_init todo :
  pool_pending (pool_init w0 todo) = sum_list todo.
Proof.
  unfold pool_pending, pool_init; simpl.
  induction todo as [|k todo IH]; csimpl; [reflexivity|].
  unfold caller_pending at 1; simpl. f_equal. rewrite Nat.add_0_r.
  f_equal. exact IH.
Qed.

(** A step of a caller, seen on the caller alone. *)
Lemma pool_step_caller t p p' :
  pool_step hook t p = Some p' ->
  exists c c',
    p_callers p !! t = Some c
    /\ p_callers p' = <[t := c']> (p_callers p)
    /\ caller_rank c' < caller_rank c
    /\ p_returned p' + caller_pending c' = p_returned p + caller_pending c.
Proof.
  unfold pool_step.
  destruct (p_callers p !! t) as [[[|pc] todo]|]; [| |discriminate].
  - destruct todo as [|k]; simpl; [discriminate|]. intros [= <-].
    eexists _, _. split; [reflexivity|]. split; [reflexivity|].
    unfold caller_rank, caller_pending; simpl. lia.
  - simpl. intros Hstep.
    destruct pc; simpl in Hstep;
      try (destruct (mu (p_once p)); [discriminate|]);
      injection Hstep as <-;
      (eexists _, _; split; [reflexivity|]; split; [reflexivity|]);
      unfold caller_rank, caller_pending; simpl;
      try (destruct (done (p_once p))); simpl; lia.
Qed.

Lemma pool_step_rank t p p' :
  pool_step hook t p = Some p' ->
  pool_rank p' < pool_rank p
  /\ p_returned p' + pool_pending p' = p_returned p + pool_pending p.
Proof.
  intros Hstep.
  destruct (pool_step_caller _ _ _ Hstep) as (c & c' & Hl & Hc & Hr & Hp).
  unfold pool_rank, pool_pending. rewrite Hc.
  pose proof (sum_list_insert caller_rank _ _ _ c' Hl).
  pose proof (sum_list_insert caller_pending _ _ _ c' Hl).
  unfold tid in *. lia.
Qed.

(** No deadlock: while an invocation is outstanding some caller can
    move. *)
Lemma pool_progress p :
  pool_inv hook w0 p -> 0 < pool_rank p -> exists t p', pool_step hook t p = Some p'.
Proof.
  intros [(Hok & _ & Hheld & _) _] Hpos.
  destruct (mu (p_once p)) as [h|] eqn:Hmu.
  - (* the holder of the mutex can move *)
    destruct (Hheld h eq_refl) as (pc & Hp & Hcs).
    unfold callers_pcs in Hp.
    destruct (p_callers p !! h) as [[[|pc2] todo]|] eqn:Hl; try discriminate.
    unfold caller_at in Hp; simpl in Hp. injection Hp as ->.
    exists h. unfold pool_step, tid in *. rewrite Hl; simpl.
    destruct pc; try discriminate; simpl; eexists; reflexivity.
  - (* the mutex is free: whoever has something left can move *)
    destruct (sum_list_positive _ _ Hpos) as (t & [[|pc] todo] & Hl & Hc).
    + unfold caller_rank in Hc; simpl in Hc.
      destruct todo as [|k]; [lia|].
      exists t. unfold pool_step, tid in *. rewrite Hl; simpl. eexists; reflexivity.
    + assert (Hpc : callers_pcs (p_callers p) t = Some pc)
        by (unfold callers_pcs, tid; rewrite Hl; reflexivity).
      specialize (Hok t pc Hpc).
      exists t. unfold pool_step, tid in *. rewrite Hl; simpl.
      destruct pc; simpl in Hok |- *; rewrite ?Hmu;
        try (destruct Hok as (Hx & _); congruence);
        eexists; reflexivity.
Qed.

Lemma pool_rank_zero (p : pool (W := W)) :
  pool_rank p = 0 -> pool_pending p = 0.
Proof.
  unfold pool_rank, pool_pending.
  induction (p_callers p) as [|[[|pc] todo] l IH]; csimpl; [reflexivity| |].
  - unfold caller_rank at 1, caller_pending at 1; simpl. lia.
  - unfold caller_rank at 1; simpl. destruct pc; simpl; lia.
Qed.

Lemma pool_finishes (n : nat) p :
  pool_rank p <= n -> pool_inv hook w0 p ->
  exists sched' p',
    pool_run hook sched' p = Some p'
    /\ p_returned p' = p_returned p + pool_pending p.
Proof.
  revert p; induction n as [|n IH]; intros p Hr Hinv.
  - exists [], p. split; [reflexivity|].
    rewrite pool_rank_zero; lia.
  - destruct (Nat.eq_dec (pool_rank p) 0) as [Hz|Hnz].
    + exists [], p. split; [reflexivity|]. rewrite pool_rank_zero; lia.
    + destruct (pool_progress p Hinv) as (t & q & Hs); [lia|].
      destruct (pool_step_rank _ _ _ Hs) as (Hlt & Hsum).
      destruct (IH q) as (sched' & p' & Hrun & Hret);
        [lia | eapply pool_inv_step; eassumption |].
      exists (t :: sched'), p'. simpl. rewrite Hs. split; [exact Hrun | lia].
Qed.

Lemma pool_run_count sched p p' :
  pool_run hook sched p = Some p' ->
  p_returned p' + pool_pending p' = p_returned p + pool_pending p.
Proof.
  revert p; induction sched as [|t sched IH]; simpl; intros p.
  - now intros [= <-].
  - destruct (pool_step hook t p) as [q|] eqn:Hs; [|discriminate].
    intros Hr. rewrite (IH q Hr). exact (proj2 (pool_step_rank _ _ _ Hs)).
Qed.

Lemma pool_run_rank sched p p' :
  pool_run hook sched p = Some p' -> length sched + pool_rank p' <= pool_rank p.
Proof.
  revert p; induction sched as [|t sched IH]; simpl; intros p.
  - intros [= <-]. lia.
  - destruct (pool_step hook t p) as [q|] eqn:Hs; [|discriminate].
    intros Hr. specialize (IH q Hr).
    pose proof (proj1 (pool_step_rank _ _ _ Hs)). lia.
Qed.

Lemma pool_pending_rank (p : pool (W := W)) : pool_pending p <= pool_rank p.
Proof.
  unfold pool_rank, pool_pending.
  induction (p_callers p) as [|[[|pc] todo] l IH]; csimpl; [lia| |].
  - unfold caller_rank at 1, caller_pending at 1; simpl. lia.
  - unfold caller_rank at 1, caller_pending at 1; simpl.
    destruct pc; simpl; lia.
Qed.

(** C2: whatever the wrapped action, however many goroutines call
    [call] and however often, under every interleaving: the wrapped action
    has run at most once; as soon as one invocation has returned it has
    run exactly once and [called] reads true; once [called] reads true
    it does so after every further step; and the invocations all
    return: every interleaving is finite, and as long as an invocation
    is outstanding some caller can move. *)
Theorem once_fires_exactly_once (todo : list nat) (sched : list tid)
    (p : pool) :
  pool_run hook sched (pool_init w0 todo) = Some p ->
  fired (p_once p) <= 1
  /\ (0 < p_returned p ->
      fired (p_once p) = 1 /\ world (p_once p) = hook w0
      /\ called (p_once p) = true)
  /\ (called (p_once p) = true ->
      forall sched' p', pool_run hook sched' p = Some p' ->
        called (p_once p') = true)
  /\ (forall sched' p',
        pool_run hook sched' p = Some p' ->
        length sched' <= pool_rank p
        /\ (0 < pool_pending p' -> exists t q, pool_step hook t p' = Some q))
  /\ (exists sched' p',
        pool_run hook sched' p = Some p'
        /\ p_returned p' = sum_list todo).
Proof.
  intros Hrun.
  pose proof (pool_inv_run _ _ _ (pool_inv_init todo) Hrun) as Hp.
  destruct Hp as [Hinv Hret].
  pose proof Hinv as (_ & _ & _ & Hdone & _ & Hle & Hw).
  split; [assumption|split; [|split; [|split]]].
  - intros Hpos. destruct (Hdone (Hret Hpos)) as [Hf Hc].
    rewrite Hw, Hf. auto.
  - intros Hc sched' p' Hrun'. eapply pool_run_called; eassumption.
  - intros sched' p' Hrun'. split.
    + pose proof (pool_run_rank _ _ _ Hrun'). lia.
    + intros Hpend. apply pool_progress.
      * eapply pool_inv_run; [|exact Hrun']. split; assumption.
      * pose proof (pool_pending_rank p'). lia.
  - destruct (pool_finishes (pool_rank p) p (le_n _) (conj Hinv Hret))
      as (sched' & p' & Hrun' & Hr).
    exists sched', p'. split; [exact Hrun'|].
    pose proof (pool_run_count _ _ _ Hrun) as Hcount.
    rewrite pool_pending_init in Hcount. simpl in Hcount. lia.
Qed.

End OnceFacts.

Lemma once_fires_exactly_once_witness :
  let p := {| p_once := {| called := true; done := true; mu := None;
                           fired := 1; world := 6%Z |};
              p_callers := [mkCaller Idle 0; mkCaller Idle 0];
              p_returned := 3 |} in
  pool_run Z.succ (one_call 0 ++ [1; 1; 1; 0; 0; 0]) (pool_init 5%Z [2; 1])
  = Some p
  /\ fired (p_once p) = 1 /\ world (p_once p) = 6%Z
  /\ called (p_once p) = true.
Proof.
  intros p.
  assert (Hrun : pool_run Z.succ (one_call 0 ++ [1; 1; 1; 0; 0; 0])
                   (pool_init 5%Z [2; 1]) = Some p)
    by (vm_compute; reflexivity).
  split; [exact Hrun|].
  apply (once_fires_exactly_once Z.succ 5%Z [2; 1] _ p Hrun).
  simpl. lia.
Defined.

(** ** Producers drained by a range loop *)

Section DrainFacts.

Context {A B R : Type}.
Variable cap : nat.
Variable request : R.
Variable reply : list A * option error.
Variable body : A -> list B -> option (list B).

Local Abbreviation step := (drain_step cap request reply body).
Local Abbreviation run := (drain_run cap request reply body).
Local Abbreviation inv := (drain_inv request reply body).

Lemma drain_fold_snoc (l : list A) (a : A) (acc : list B) :
  drain_fold body (l ++ [a]) acc
  = match drain_fold body l acc with
    | Some acc' => body a acc'
    | None => None
    end.
Proof.
  revert acc; induction l as [|x l IH]; simpl; intros acc.
  - destruct (body a acc); reflexivity.
  - destruct (body x acc); [apply IH | reflexivity].
Qed.

Lemma drain_inv_start : inv drain_start.
Proof. exists []. repeat split. Qed.

Lemma drain_inv_step l s s' : inv s -> step l s = Some s' -> inv s'.
Proof.
  intros [recvd [Hp Hm]] Hstep.
  destruct s as [prod main ch closed err acc calls]; simpl in Hp, Hm.
  destruct l; simpl in Hstep.
  - (* the producer moves *)
    destruct prod as [[|[|a todo]| |]|]; try discriminate.
    + injection Hstep as <-. exists recvd.
      destruct Hp as (-> & -> & -> & -> & ->). split; simpl; auto.
    + injection Hstep as <-. exists recvd.
      destruct Hp as (Hr & -> & -> & ->). split; simpl.
      * rewrite app_nil_r in Hr. auto.
      * destruct main; intuition discriminate.
    + destruct (Nat.ltb (length ch) cap); [|discriminate].
      injection Hstep as <-. exists recvd.
      destruct Hp as (Hr & -> & -> & ->). split; simpl.
      * rewrite <- app_assoc. simpl. auto.
      * destruct main; intuition discriminate.
    + injection Hstep as <-. exists recvd.
      destruct Hp as (Hr & -> & -> & ->). split; simpl; auto.
  - (* the caller moves *)
    destruct main; try discriminate.
    + destruct ch as [|a rest].
      * destruct closed; [|discriminate]. injection Hstep as <-.
        exists recvd. split; simpl; auto.
      * assert (Hp' :
                  match prod with
                  | None => False
                  | Some PCall => False
                  | Some (PSend todo) =>
                      fst reply = (recvd ++ [a]) ++ rest ++ todo /\ closed = false
                      /\ err = None /\ calls = [request]
                  | Some PAssign =>
                      fst reply = (recvd ++ [a]) ++ rest /\ closed = true
                      /\ err = None /\ calls = [request]
                  | Some PDone =>
                      fst reply = (recvd ++ [a]) ++ rest /\ closed = true
                      /\ err = snd reply /\ calls = [request]
                  end).
        { destruct prod as [[| | |]|]; try tauto;
            try (rewrite <- app_assoc; simpl; tauto).
          destruct Hp as (_ & Hc & _). discriminate Hc. }
        destruct (body a acc) as [acc'|] eqn:Hb; injection Hstep as <-;
          exists (recvd ++ [a]); (split; simpl;
            [destruct prod as [[| | |]|]; tauto
            |rewrite drain_fold_snoc, Hm; auto]).
    + injection Hstep as <-. exists recvd.
      destruct Hm as (Hf & -> & ->). split; simpl; [assumption|].
      repeat split; auto.
      destruct prod as [[| | |]|]; simpl in Hp; intuition.
Qed.

Lemma drain_inv_run sched s s' : inv s -> run sched s = Some s' -> inv s'.
Proof.
  revert s; induction sched as [|l sched IH]; simpl; intros s Hinv.
  - now intros [= <-].
  - destruct (step l s) as [q|] eqn:Hs; [|discriminate].
    apply IH. eapply drain_inv_step; eassumption.
Qed.

(** A loop that has returned has folded its body over everything the
    call sent, and returns nil or the error of the call. *)
Lemma drain_returned sched s res e :
  run sched drain_start = Some s -> d_main s = MReturned res e ->
  drain_fold body (fst reply) [] = Some res
  /\ (e = None \/ e = snd reply)
  /\ d_calls s = [request].
Proof.
  intros Hrun Hm.
  destruct (drain_inv_run _ _ _ drain_inv_start Hrun) as [recvd [Hp Hq]].
  rewrite Hm in Hq. destruct Hq as (Hf & Hc & Hch & He).
  rewrite Hch, Hc in Hp.
  destruct (d_prod s) as [[| | |]|]; try tauto;
    try (destruct Hp as (_ & _ & Hx & _); discriminate Hx);
    try (destruct Hp as (_ & Hx & _); discriminate Hx);
    destruct Hp as (Hr & _ & _ & Hcalls); rewrite app_nil_r in Hr;
    rewrite Hr; auto.
Qed.

(** What the loop has gathered is always the body folded over a prefix of
    what the call sends. *)
Lemma drain_gathered sched s :
  run sched drain_start = Some s -> d_main s <> MPanic ->
  exists recvd rest,
    fst reply = recvd ++ rest /\ drain_fold body recvd [] = Some (d_acc s).
Proof.
  intros Hrun Hm.
  assert (Hacc : forall sched s, run sched drain_start = Some s ->
            forall res e, d_main s = MReturned res e -> d_acc s = res).
  { clear. intros sched.
    assert (G : forall s s', (forall res e, d_main s = MReturned res e -> d_acc s = res) ->
                run sched s = Some s' ->
                forall res e, d_main s' = MReturned res e -> d_acc s' = res).
    { induction sched as [|l sched IH]; simpl; intros s s' Hs.
      - intros [= <-]. exact Hs.
      - destruct (step l s) as [q|] eqn:Hq; [|discriminate].
        apply IH. clear IH. intros res e.
        destruct s as [prod main ch closed err acc calls]; simpl in Hs.
        destruct l; simpl in Hq.
        + destruct prod as [[|[|a todo]| |]|]; try discriminate;
            try (destruct (Nat.ltb _ _); [|discriminate]);
            injection Hq as <-; simpl; apply Hs.
        + destruct main; try discriminate.
          * destruct ch as [|a rest];
              [destruct closed; [|discriminate]|destruct (body a acc)];
              injection Hq as <-; simpl; discriminate.
          * injection Hq as <-; simpl. now intros [= <- _]. }
    intros s. apply G. simpl. discriminate. }
  destruct (drain_inv_run _ _ _ drain_inv_start Hrun) as [recvd [Hp Hq]].
  assert (Hpre : exists rest, fst reply = recvd ++ rest).
  { destruct (d_prod s) as [[|todo| |]|]; try tauto.
    - destruct Hp as (-> & _). eexists; reflexivity.
    - destruct Hp as (-> & _). eexists; reflexivity.
    - destruct Hp as (-> & _). eexists; reflexivity.
    - destruct Hp as (-> & _). eexists; reflexivity. }
  destruct Hpre as [rest Hrest]. exists recvd, rest. split; [assumption|].
  destruct (d_main s) eqn:Hmain; try tauto.
  - destruct Hq as (Hf & _). rewrite (Hacc _ _ Hrun _ _ Hmain). exact Hf.
Qed.


(** Sent one at a time and taken at once, the values leave the channel
    empty and the body folded over them. *)
Lemma drain_pairs (tail : list drain_label) (todo : list A) (acc res : list B) :
  0 < cap -> drain_fold body todo acc = Some res ->
  run (concat (repeat [Producer; Caller] (length todo)) ++ tail)
    (mkDrain (Some (PSend todo)) MRange [] false None acc [request])
  = run tail (mkDrain (Some (PSend [])) MRange [] false None res [request]).
Proof.
  intros Hcap. revert acc; induction todo as [|a todo IH]; intros acc Hf.
  - simpl in Hf. injection Hf as <-. reflexivity.
  - simpl in Hf. destruct (body a acc) as [acc'|] eqn:Hb; [|discriminate].
    cbn [length repeat concat app drain_run drain_step].
    apply Nat.ltb_lt in Hcap. cbn [length]. rewrite Hcap.
    cbn [app drain_run drain_step]. rewrite Hb. apply IH, Hf.
Qed.

(** The caller that reads [err] after the producer's assignment returns
    the error of the call. *)
Lemma drain_lockstep (res : list B) :
  0 < cap -> drain_fold body (fst reply) [] = Some res ->
  run (lockstep (length (fst reply))) drain_start
  = Some (mkDrain (Some PDone) (MReturned res (snd reply)) [] true
            (snd reply) res [request]).
Proof.
  intros Hcap Hf. unfold lockstep, drain_start.
  cbn [app drain_run drain_step].
  rewrite (drain_pairs _ _ _ _ Hcap Hf). reflexivity.
Qed.

(** The caller that reads [err] right after the close returns nil,
    whatever the call returns. *)
Lemma drain_hasty (res : list B) :
  0 < cap -> drain_fold body (fst reply) [] = Some res ->
  run (hasty (length (fst reply))) drain_start
  = Some (mkDrain (Some PDone) (MReturned res None) [] true
            (snd reply) res [request]).
Proof.
  intros Hcap Hf. unfold hasty, drain_start.
  cbn [app drain_run drain_step].
  rewrite (drain_pairs _ _ _ _ Hcap Hf). reflexivity.
Qed.

(** Where no goroutine was started and the caller has returned, nothing
    moves any more. *)
Lemma drain_returned_still sched res e ch closed err acc calls s :
  run sched (mkDrain None (MReturned res e) ch closed err acc calls) = Some s ->
  s = mkDrain None (MReturned res e) ch closed err acc calls.
Proof.
  destruct sched as [|[|] sched]; simpl; [now intros [= <-]| |]; discriminate.
Qed.

End DrainFacts.

(** ** Enumerating the messages of a mailbox *)

Lemma uidBody_fold (mbox : MailboxStatus) (l : list (option Message))
    (acc : list uidExt) :
  drain_fold (uidBody mbox) l acc = Some (acc ++ uidsOf mbox l).
Proof.
  revert acc; induction l as [|[m|] l IH]; intros acc; simpl.
  - now rewrite app_nil_r.
  - rewrite IH, <- app_assoc. reflexivity.
  - apply IH.
Qed.

(** C6: for a mailbox without messages [getAllMessageUUIDs] has returned
    an empty sequence and a nil error, no goroutine exists and nothing is
    ever asked of the server. *)
Theorem getAllMessageUUIDs_empty_mailbox (mbox : MailboxStatus)
    (imapClient : imapOps) (sched : list drain_label) s :
  Messages mbox = 0%Z ->
  getAllMessageUUIDs_run mbox imapClient sched
    (getAllMessageUUIDs mbox imapClient) = Some s ->
  d_main s = MReturned [] None /\ d_calls s = [] /\ d_prod s = None.
Proof.
  intros Hz. unfold getAllMessageUUIDs, getAllMessageUUIDs_run.
  rewrite Hz. cbn [Z.eqb]. intros Hrun.
  apply drain_returned_still in Hrun. subst s. simpl. auto.
Qed.

Lemma getAllMessageUUIDs_empty_mailbox_witness :
  let mbox := {| Flags := []; Messages := 0; UidValidity := 42 |} in
  let s := getAllMessageUUIDs mbox (exampleServer None) in
  d_main s = MReturned [] None /\ d_calls s = [] /\ d_prod s = None.
Proof.
  intros mbox s.
  apply (getAllMessageUUIDs_empty_mailbox mbox (exampleServer None) [] s);
    reflexivity.
Defined.

(** C7: for a mailbox with messages, whatever the server delivers and
    under every interleaving, [getAllMessageUUIDs] returns the delivered
    entries that are not nil, in delivery order, each as
    [uidExt{folder: mbox.UidValidity, msg: m.Uid}]; a nil entry never makes
    the loop fail, and the error returned is nil or the one of [Fetch];
    the function does return. *)
Theorem getAllMessageUUIDs_maps_delivered (mbox : MailboxStatus)
    (imapClient : imapOps) :
  (0 < Messages mbox)%Z ->
  let delivered :=
    fst (Fetch imapClient (allMessages mbox) [FetchUid; FetchInternalDate]) in
  (forall sched s,
      getAllMessageUUIDs_run mbox imapClient sched
        (getAllMessageUUIDs mbox imapClient) = Some s ->
      d_main s <> MPanic
      /\ (exists recvd rest, delivered = recvd ++ rest
                            /\ d_acc s = uidsOf mbox recvd)
      /\ (forall uids e, d_main s = MReturned uids e ->
            uids = uidsOf mbox delivered
            /\ (e = None \/ e = snd (Fetch imapClient (allMessages mbox)
                                      [FetchUid; FetchInternalDate]))))
  /\ (exists sched s e,
        getAllMessageUUIDs_run mbox imapClient sched
          (getAllMessageUUIDs mbox imapClient) = Some s
        /\ d_main s = MReturned (uidsOf mbox delivered) e).
Proof.
  intros Hpos delivered.
  assert (Hstart : getAllMessageUUIDs mbox imapClient = drain_start).
  { unfold getAllMessageUUIDs. destruct (Z.eqb_spec (Messages mbox) 0); [lia|].
    reflexivity. }
  rewrite Hstart. unfold getAllMessageUUIDs_run. split.
  - intros sched s Hrun.
    assert (Hnp : d_main s <> MPanic).
    { intros Hm.
      destruct (drain_inv_run _ _ _ _ _ _ _ (drain_inv_start _ _ _) Hrun)
        as [recvd [_ Hq]].
      rewrite Hm, uidBody_fold in Hq. discriminate Hq. }
    split; [assumption|split].
    + destruct (drain_gathered _ _ _ _ _ _ Hrun Hnp) as (recvd & rest & Hd & Hf).
      exists recvd, rest. split; [exact Hd|].
      rewrite uidBody_fold in Hf. now injection Hf as <-.
    + intros uids e Hm.
      destruct (drain_returned _ _ _ _ _ _ _ _ Hrun Hm) as (Hf & He & _).
      rewrite uidBody_fold in Hf. injection Hf as <-. auto.
  - eexists _, _, _. split.
    + apply drain_lockstep; [unfold messageRetrievalBuffer; lia|].
      apply uidBody_fold.
    + reflexivity.
Qed.

Lemma getAllMessageUUIDs_maps_delivered_witness :
  let mbox := {| Flags := []; Messages := 3; UidValidity := 42 |} in
  uidsOf mbox threeMessages = [mkUidExt 42 1; mkUidExt 42 2; mkUidExt 42 3]
  /\ exists sched s e,
       getAllMessageUUIDs_run mbox (exampleServer None) sched
         (getAllMessageUUIDs mbox (exampleServer None)) = Some s
       /\ d_main s = MReturned [mkUidExt 42 1; mkUidExt 42 2; mkUidExt 42 3] e.
Proof.
  intros mbox. split; [reflexivity|].
  assert (Hpos : (0 < Messages mbox)%Z) by (simpl; lia).
  exact (proj2 (getAllMessageUUIDs_maps_delivered mbox (exampleServer None) Hpos)).
Defined.

(** ** Listing the folders *)

Lemma folderBody_fold (l : list MailboxInfo) (acc : list string) :
  drain_fold folderBody (map Some l) acc = Some (acc ++ map Name l).
Proof.
  revert acc; induction l as [|m l IH]; intros acc; simpl.
  - now rewrite app_nil_r.
  - rewrite IH, <- app_assoc. reflexivity.
Qed.

(** What does hold of [getFolderList] under every interleaving: it asks
    the server once, returns the names in the order they were sent, and
    returns nil or the error of [List]. *)
Lemma getFolderList_returns (imapClient : imapOps) (boxes : list MailboxInfo)
    sched s folders e :
  fst (List imapClient "" "*") = map Some boxes ->
  getFolderList_run imapClient sched (getFolderList imapClient) = Some s ->
  d_main s = MReturned folders e ->
  folders = map Name boxes
  /\ (e = None \/ e = snd (List imapClient "" "*"))
  /\ d_calls s = [("", "*")%string].
Proof.
  intros Hb Hrun Hm.
  destruct (drain_returned _ _ _ _ _ _ _ _ Hrun Hm) as (Hf & He & Hc).
  rewrite Hb, folderBody_fold in Hf. injection Hf as <-. auto.
Qed.

(** An empty list of folders is returned as such, without an error of
    its own. *)
Lemma getFolderList_empty (imapClient : imapOps) :
  fst (List imapClient "" "*") = [] ->
  exists s,
    getFolderList_run imapClient (lockstep 0) (getFolderList imapClient) = Some s
    /\ d_main s = MReturned [] (snd (List imapClient "" "*")).
Proof.
  intros Hb. eexists. split.
  - pose proof (drain_lockstep folderListBuffer ("", "*")%string
                  (List imapClient "" "*") folderBody []) as H.
    rewrite Hb in H. apply H; [unfold folderListBuffer; lia | reflexivity].
  - reflexivity.
Qed.

(** The caller that reads [err] after the producer's assignment returns
    the error of [List]. *)
Lemma getFolderList_lockstep (imapClient : imapOps) (boxes : list MailboxInfo) :
  fst (List imapClient "" "*") = map Some boxes ->
  exists s,
    getFolderList_run imapClient (lockstep (length boxes))
      (getFolderList imapClient) = Some s
    /\ d_main s = MReturned (map Name boxes) (snd (List imapClient "" "*")).
Proof.
  intros Hb. eexists. split.
  - pose proof (drain_lockstep folderListBuffer ("", "*")%string
                  (List imapClient "" "*") folderBody (map Name boxes)) as H.
    rewrite Hb, length_map in H.
    apply H; [unfold folderListBuffer; lia | apply (folderBody_fold boxes [])].
  - reflexivity.
Qed.

(** The caller that reads [err] between the close of the channel and the
    producer's assignment returns nil, whatever [List] returns. *)
Lemma getFolderList_hasty (imapClient : imapOps) (boxes : list MailboxInfo) :
  fst (List imapClient "" "*") = map Some boxes ->
  exists s,
    getFolderList_run imapClient (hasty (length boxes))
      (getFolderList imapClient) = Some s
    /\ d_main s = MReturned (map Name boxes) None
    /\ d_err s = snd (List imapClient "" "*").
Proof.
  intros Hb. eexists. split.
  - pose proof (drain_hasty folderListBuffer ("", "*")%string
                  (List imapClient "" "*") folderBody (map Name boxes)) as H.
    rewrite Hb, length_map in H.
    apply H; [unfold folderListBuffer; lia | apply (folderBody_fold boxes [])].
  - split; reflexivity.
Qed.

(** C9, at the input where it fails: [List] sends "INBOX", closes the
    channel and returns an error.  The caller drains the channel, sees it
    closed and returns before the producer goroutine has assigned the
    error: the caller gets a nil error although the producer records
    [connectionLost]. *)
Theorem getFolderList_error_lost :
  let imapClient := exampleServer (Some connectionLost) in
  snd (List imapClient "" "*") = Some connectionLost
  /\ getFolderList_run imapClient (hasty 1) (getFolderList imapClient)
     = Some (mkDrain (Some PDone) (MReturned ["INBOX"%string] None) [] true
               (Some connectionLost) ["INBOX"%string] [("", "*")%string]).
Proof. split; vm_compute; reflexivity. Qed.

(** ** The retrieval pipeline *)

Lemma omap_length_le {A B : Type} (f : A -> option B) (l : list A) :
  length (omap f l) <= length l.
Proof.
  induction l as [|a l IH]; csimpl; [lia|].
  destruct (f a); simpl; lia.
Qed.

(** Case analysis on a step: splits on whatever the step function looks
    at until the new state is known. *)
Ltac crack H :=
  repeat (simpl in H;
          match type of H with
          | None = Some _ => discriminate H
          | context [match ?x with _ => _ end] =>
              lazymatch x with
              | context [match _ with _ => _ end] => fail
              | _ => destruct x eqn:?
              end
          end);
  try (injection H as <-).

(** Splits on the innermost thing a goal inspects. *)
Ltac split_goal :=
  repeat match goal with
         | |- context [match ?x with _ => _ end] =>
             lazymatch x with
             | context [match _ with _ => _ end] => fail
             | _ => destruct x eqn:?
             end
         end.

Section RetrievalFacts.

Variable intToUint32 : Z -> Z.
Variable imapClient : imapOps.
Variable uids : list uid.
Variable wg : Z.

Local Abbreviation step := (pipeline_step intToUint32 imapClient uids).
Local Abbreviation run := (pipeline_run intToUint32 imapClient uids).
Local Abbreviation reply := (uidFetchReply intToUint32 imapClient uids).
Local Abbreviation oinv := (once_inv wgDone (wg + 1)%Z).

Lemma pipeline_inv_start :
  pipeline_inv intToUint32 imapClient uids wg (pipeline_start wg).
Proof.
  unfold pipeline_inv, pipeline_start; simpl. split; [|split; [|split; [|split]]].
  - eapply once_inv_ext; [|apply once_inv_init].
    intros [|[|t]]; reflexivity.
  - unfold fetch_inv; simpl; auto.
  - unfold out_inv; simpl. repeat split; try discriminate.
    unfold messageRetrievalBuffer; lia.
  - unfold count_inv; simpl. repeat split; lia.
  - unfold cancel_inv; simpl. reflexivity.
Qed.

(** Seen from [already], a step of the pipeline leaves it alone, lets a
    goroutine enter or leave [call], or is a step inside [call]. *)
Lemma pipeline_step_once l p p' :
  step l p = Some p' ->
  (p_already p' = p_already p
   /\ forall t, pipeline_pcs p' t = pipeline_pcs p t)
  \/ (p_already p' = p_already p
      /\ exists t, pipeline_pcs p t = None
           /\ forall t', pipeline_pcs p' t' = upd (pipeline_pcs p) t (Some DoFast) t')
  \/ (p_already p' = p_already p
      /\ exists t, pipeline_pcs p t = Some DoReturn
           /\ forall t', pipeline_pcs p' t' = upd (pipeline_pcs p) t None t')
  \/ (exists t pc pc',
        pipeline_pcs p t = Some pc
        /\ call_step wgDone t pc (p_already p) = Some (pc', p_already p')
        /\ forall t', pipeline_pcs p' t' = upd (pipeline_pcs p) t (Some pc') t').
Proof.
  intros Hstep.
  destruct p as [o ec st f t oc out ocl calls dl cs cn ti fi].
  destruct l; simpl in Hstep.
  - destruct st; [discriminate|]. injection Hstep as <-.
    left. split; [reflexivity|]. intros [|[|?]]; reflexivity.
  - destruct f as [| |[|m todo]| | |r|pc|]; try discriminate.
    + destruct st; [|discriminate]. injection Hstep as <-.
      left. split; [reflexivity|]. intros [|[|?]]; reflexivity.
    + injection Hstep as <-.
      left. split; [reflexivity|]. intros [|[|?]]; reflexivity.
    + injection Hstep as <-.
      left. split; [reflexivity|]. intros [|[|?]]; reflexivity.
    + destruct t; try discriminate. injection Hstep as <-.
      left. split; [reflexivity|]. intros [|[|?]]; destruct m; reflexivity.
    + injection Hstep as <-. destruct (uf_err reply).
      * left. split; [reflexivity|]. intros [|[|?]]; reflexivity.
      * right; left. split; [reflexivity|]. exists fetchTid.
        split; [reflexivity|]. intros [|[|?]]; reflexivity.
    + injection Hstep as <-.
      left. split; [reflexivity|]. intros [|[|?]]; reflexivity.
    + injection Hstep as <-.
      right; left. split; [reflexivity|]. exists fetchTid.
      split; [reflexivity|]. intros [|[|?]]; reflexivity.
    + destruct pc;
        try (destruct (call_step wgDone fetchTid _ o) as [[pc' o']|] eqn:Hc;
             [|discriminate]; injection Hstep as <-;
             right; right; right; eexists fetchTid, _, pc';
             split; [reflexivity|]; split; [exact Hc|];
             intros [|[|?]]; reflexivity).
      injection Hstep as <-.
      right; right; left. split; [reflexivity|]. exists fetchTid.
      split; [reflexivity|]. intros [|[|?]]; reflexivity.
  - destruct t as [| | |r|pc| |m| |]; try discriminate.
    + injection Hstep as <-.
      left. split; [reflexivity|]. intros [|[|?]]; destruct (called o); reflexivity.
    + destruct interrupted; injection Hstep as <-;
        (left; split; [reflexivity|]; intros [|[|?]]; reflexivity).
    + injection Hstep as <-.
      left. split; [reflexivity|]. intros [|[|?]]; reflexivity.
    + injection Hstep as <-.
      right; left. split; [reflexivity|]. exists transTid.
      split; [reflexivity|]. intros [|[|?]]; reflexivity.
    + destruct pc;
        try (destruct (call_step wgDone transTid _ o) as [[pc' o']|] eqn:Hc;
             [|discriminate]; injection Hstep as <-;
             right; right; right; eexists transTid, _, pc';
             split; [reflexivity|]; split; [exact Hc|];
             intros [|[|?]]; reflexivity).
      injection Hstep as <-.
      right; right; left. split; [reflexivity|]. exists transTid.
      split; [reflexivity|]. intros [|[|?]]; reflexivity.
    + destruct oc; [|discriminate]. injection Hstep as <-.
      left. split; [reflexivity|]. intros [|[|?]]; reflexivity.
    + destruct (Nat.ltb _ _); [|discriminate]. injection Hstep as <-.
      left. split; [reflexivity|]. intros [|[|?]]; reflexivity.
    + injection Hstep as <-.
      left. split; [reflexivity|]. intros [|[|?]]; reflexivity.
  - destruct out as [|m rest]; [discriminate|]. injection Hstep as <-.
    left. split; [reflexivity|]. intros [|[|?]]; reflexivity.
Qed.

Lemma pipeline_once_step l p p' :
  oinv (pipeline_pcs p) (p_already p) -> step l p = Some p' ->
  oinv (pipeline_pcs p') (p_already p').
Proof.
  intros Hinv Hstep.
  destruct (pipeline_step_once _ _ _ Hstep)
    as [[-> He]|[[-> (t & Ht & He)]|[[-> (t & Ht & He)]|(t & pc & pc' & Ht & Hc & He)]]].
  - eapply once_inv_ext; eassumption.
  - eapply once_inv_ext; [exact He|]. now apply once_inv_enter.
  - eapply once_inv_ext; [exact He|]. now apply once_inv_leave.
  - eapply once_inv_ext; [exact He|]. eapply once_inv_step; eassumption.
Qed.

Lemma pipeline_fetch_step l p p' :
  fetch_inv intToUint32 imapClient uids p -> step l p = Some p' ->
  fetch_inv intToUint32 imapClient uids p'.
Proof.
  intros Hinv Hstep. unfold fetch_inv in *.
  destruct p as [o ec st f t oc out ocl calls dl cs cn ti fi].
  destruct l; crack Hstep; simpl in *; split_goal; simpl in *;
    intuition (subst; simpl; try rewrite <- app_assoc; auto using app_nil_r).
  now rewrite app_nil_r in *.
Qed.

Lemma pipeline_out_step l p p' :
  out_inv p -> step l p = Some p' -> out_inv p'.
Proof.
  intros Hinv Hstep. unfold out_inv in *.
  destruct p as [o ec st f t oc out ocl calls dl cs cn ti fi].
  destruct l; crack Hstep; simpl in *; split_goal; simpl in *;
    rewrite ?omap_app, ?length_app in *; simpl in *;
    rewrite ?app_nil_r in *;
    try match goal with
        | H : Nat.ltb _ _ = true |- _ => apply Nat.ltb_lt in H
        end;
    unfold messageRetrievalBuffer in *;
    destruct Hinv as (Ho & Hl & Hc);
    (split; [|split; [|split]]);
    try lia; try discriminate; try tauto; try congruence;
    try (rewrite Ho; rewrite <- ?app_assoc; reflexivity);
    try (intros; apply Hc; assumption);
    try (intros Hx; apply Hc in Hx; discriminate Hx).
Qed.

Lemma pipeline_count_step l p p' :
  count_inv intToUint32 imapClient uids p -> step l p = Some p' ->
  count_inv intToUint32 imapClient uids p'.
Proof.
  intros Hinv Hstep. unfold count_inv in *.
  destruct p as [o ec st f t oc out ocl calls dl cs cn ti fi].
  destruct l; crack Hstep; simpl in *; split_goal; simpl in *;
    intuition (try congruence; try lia).
Qed.

Lemma pipeline_cancel_step l p p' :
  oinv (pipeline_pcs p) (p_already p) ->
  cancel_inv p -> step l p = Some p' -> cancel_inv p'.
Proof.
  intros Ho Hinv Hstep.
  assert (F1 : p_trans p = TOnce DoReturn -> done (p_already p) = true).
  { intros Ht. destruct Ho as (Hok & _). apply (Hok transTid DoReturn).
    unfold pipeline_pcs; simpl. now rewrite Ht. }
  assert (F2 : done (p_already p) = true -> called (p_already p) = true).
  { destruct Ho as (_ & _ & _ & Hd & _). intros Hx. now apply Hd. }
  clear Ho. unfold cancel_inv in *.
  destruct p as [o ec st f t oc out ocl calls dl cs cn ti fi].
  destruct l; crack Hstep; simpl in *; split_goal; simpl in *;
    try (intuition (try congruence; try lia); fail).
  destruct cn; intuition congruence.
Qed.

Lemma pipeline_inv_step l p p' :
  pipeline_inv intToUint32 imapClient uids wg p -> step l p = Some p' ->
  pipeline_inv intToUint32 imapClient uids wg p'.
Proof.
  intros (Ho & Hf & Hout & Hc & Hx) Hstep.
  split; [|split; [|split; [|split]]].
  - eapply pipeline_once_step; eassumption.
  - eapply pipeline_fetch_step; eassumption.
  - eapply pipeline_out_step; eassumption.
  - eapply pipeline_count_step; eassumption.
  - eapply pipeline_cancel_step; eassumption.
Qed.

Lemma pipeline_inv_run sched p p' :
  pipeline_inv intToUint32 imapClient uids wg p -> run sched p = Some p' ->
  pipeline_inv intToUint32 imapClient uids wg p'.
Proof.
  revert p; induction sched as [|l sched IH]; simpl; intros p Hinv.
  - now intros [= <-].
  - destruct (step l p) as [q|] eqn:Hs; [|discriminate].
    apply IH. eapply pipeline_inv_step; eassumption.
Qed.

Lemma checkUids_refuses :
  (exists u, In u uids /\ (u <= 0)%Z) -> checkUids uids = Some uidNotPositive.
Proof.
  intros (u & Hin & Hle). induction uids as [|v rest IH]; simpl in *.
  - contradiction.
  - destruct (Z.leb_spec v 0); [reflexivity|].
    destruct Hin as [->|Hin]; [lia | auto].
Qed.

Lemma checkUids_accepts :
  Forall (fun u => (0 < u)%Z) uids -> checkUids uids = None.
Proof.
  induction 1 as [|v rest Hv _ IH]; simpl; [reflexivity|].
  destruct (Z.leb_spec v 0); [lia | exact IH].
Qed.

(** C1: as soon as one identifier is not positive, wherever it stands and
    however many there are, [streamingRetrieval] returns the validation
    error and nothing else; no goroutine exists, so under every schedule
    [UidFetch] is never called and no channel is handed out. *)
Theorem streamingRetrieval_refuses_invalid :
  (exists u, In u uids /\ (u <= 0)%Z) ->
  streamingRetrieval uids wg = Refused uidNotPositive
  /\ forall sched r,
       retrieval_run intToUint32 imapClient uids sched
         (streamingRetrieval uids wg) = Some r ->
       r = Refused uidNotPositive /\ uidFetchCalls r = [].
Proof.
  intros Hbad. unfold streamingRetrieval.
  rewrite (checkUids_refuses Hbad). split; [reflexivity|].
  intros [|l sched] r; simpl; [|discriminate].
  intros [= <-]. split; reflexivity.
Qed.













(** What has left the translation goroutine is a prefix of the entries of
    [UidFetch] that are not nil. *)
Lemma output_prefix sched p :
  run sched (pipeline_start wg) = Some p ->
  output p `prefix_of` omap id (uf_sends reply).
Proof.
  intros Hrun.
  destruct (pipeline_inv_run _ _ _ pipeline_inv_start Hrun)
    as (_ & Hf & (Ho & _) & _).
  unfold output.
  assert (Hd : exists rest, uf_sends reply = p_delivered p ++ rest).
  { unfold fetch_inv in Hf.
    destruct (p_fetch p);
      try (destruct Hf as (-> & _); exists (uf_sends reply); reflexivity);
      try (destruct Hf as (-> & _); eexists; reflexivity);
      destruct Hf as (Hf & _); exists []; now rewrite app_nil_r. }
  destruct Hd as [rest ->]. rewrite omap_app, Ho.
  eexists. rewrite <- !app_assoc. reflexivity.
Qed.

(** C4, as the code has it: with positive identifiers and a server that
    delivers no more entries than were asked for, at every moment what has
    left through the returned channel is at most as long as the list of
    identifiers; it is a prefix of the delivered entries that are not
    nil, so each delivered entry is passed on at most once, in order, and
    distinct deliveries give distinct outputs. *)
Theorem output_bounded_by_delivery (sched : list label) p :
  Forall (fun u => (0 < u)%Z) uids ->
  length (uf_sends reply) <= length uids ->
  retrieval_run intToUint32 imapClient uids sched (streamingRetrieval uids wg)
  = Some (Streaming p) ->
  length (output p) <= length uids
  /\ output p `prefix_of` omap id (uf_sends reply)
  /\ (NoDup (omap id (uf_sends reply)) -> NoDup (output p)).
Proof.
  intros Hpos Hlen. unfold streamingRetrieval.
  rewrite (checkUids_accepts Hpos). simpl.
  destruct (run sched (pipeline_start wg)) as [q|] eqn:Hrun; [|discriminate].
  intros [= ->].
  pose proof (output_prefix _ _ Hrun) as Hpre.
  split; [|split; [exact Hpre|]].
  - apply prefix_length in Hpre.
    pose proof (omap_length_le (@id (option Message)) (uf_sends reply)).
    lia.
  - intros Hnd. destruct Hpre as [k Hk]. rewrite Hk in Hnd.
    now apply NoDup_app in Hnd.
Qed.

End RetrievalFacts.

Lemma streamingRetrieval_refuses_invalid_witness :
  streamingRetrieval [3; 0; -5]%Z 0 = Refused uidNotPositive
  /\ forall sched r,
       retrieval_run (fun n => n) (exampleServer None) [3; 0; -5]%Z sched
         (streamingRetrieval [3; 0; -5]%Z 0) = Some r ->
       r = Refused uidNotPositive /\ uidFetchCalls r = [].
Proof.
  apply (streamingRetrieval_refuses_invalid
           (fun n => n) (exampleServer None) [3; 0; -5]%Z 0).
  exists 0%Z. split; [simpl; auto | lia].
Defined.


(** Nothing in the pipeline counts the entries against the identifiers:
    asked for one message, a server that delivers two has both passed
    on.  So the bound of C4 does not hold for every server. *)
Lemma output_exceeds_identifiers :
  ~ (forall (imapClient : imapOps) (uids : list uid) (wg : Z)
            (sched : list label) (p : pipeline),
       Forall (fun u => (0 < u)%Z) uids ->
       retrieval_run (fun n => n) imapClient uids sched
         (streamingRetrieval uids wg) = Some (Streaming p) ->
       length (output p) <= length uids).
Proof.
  intros H.
  specialize (H (exampleServer None) [1%Z] 0%Z twoMessagesSchedule afterTwoOfOne).
  assert (Hlen : length (output afterTwoOfOne) = 2) by reflexivity.
  rewrite Hlen in H. simpl in H.
  assert (2 <= 1); [|lia].
  apply H; [repeat constructor; lia | vm_compute; reflexivity].
Qed.

Lemma output_bounded_by_delivery_witness :
  length (output afterTwoOfThree) <= 3
  /\ output afterTwoOfThree
     = [{| Uid := 1; InternalDate := 0; Body := "" |};
        {| Uid := 2; InternalDate := 0; Body := "" |}].
Proof.
  split; [|reflexivity].
  apply (output_bounded_by_delivery (fun n => n) (exampleServer None)
           [1; 2; 3]%Z 0%Z twoMessagesSchedule afterTwoOfThree).
  - repeat constructor; lia.
  - simpl. lia.
  - vm_compute. reflexivity.
Defined.

(* ================================================================= *)
(** * Part II, continued: the rest of the file *)
(* ================================================================= *)

(** ** Logging in with a password *)

Lemma password_set (config : IMAPConfig) :
  Password config <> ""%string ->
  Nat.eqb (String.length (Password config)) 0 = false.
Proof. destruct (Password config); [congruence | reflexivity]. Qed.

(** Splits on everything [authenticateClient] looks at. *)
Ltac auth_cases :=
  unfold authenticateClient, newImapClient, serverWithPort, dial, dialTLS,
    login, logInfo, logWarning, logError, emit, bind, ret in *;
  repeat match goal with
         | |- context [match ?x with _ => _ end] =>
             lazymatch x with
             | context [match _ with _ => _ end] => fail
             | _ => destruct x eqn:?
             end
         | H : context [match ?x with _ => _ end] |- _ =>
             lazymatch x with
             | context [match _ with _ => _ end] => fail
             | _ => destruct x eqn:?
             end
         end;
  simpl in *.

Section AuthFacts.

Variable clientDial : string -> imapOps + error.
Variable clientDialTLS : string -> imapOps + error.

Local Abbreviation connect :=
  (fun config => newImapClient clientDial clientDialTLS
                   (serverWithPort config) (Insecure config)).
Local Abbreviation auth := (authenticateClient clientDial clientDialTLS).

(** X1: when the connection cannot be made, whether the network or the
    insecure-address policy refuses it, [authenticateClient] returns that
    very error and never calls [Login]. *)
Theorem authenticateClient_connect_error (config : IMAPConfig) (err : error) :
  Password config <> ""%string ->
  snd (connect config) = inr err ->
  snd (auth config) = inr err
  /\ List.filter isLogin (fst (auth config)) = [].
Proof.
  intros Hpw Hc. apply password_set in Hpw.
  auth_cases; try congruence; split; congruence.
Qed.

(** X2: when the connection is made but the server rejects the login,
    [authenticateClient] returns the error of [Login] and no client;
    [Login] was called once, with the user and the password of the
    configuration. *)
Theorem authenticateClient_login_error (config : IMAPConfig)
    (c : imapOps) (err : error) :
  Password config <> ""%string ->
  snd (connect config) = inl c ->
  Login c (User config) (Password config) = Some err ->
  snd (auth config) = inr err
  /\ List.filter isLogin (fst (auth config))
     = [EvLogin (User config) (Password config)].
Proof.
  intros Hpw Hc Hl. apply password_set in Hpw.
  auth_cases; try congruence; split; congruence.
Qed.

(** X3: [authenticateClient] returns a client exactly when the password
    is not empty, the connection gave that client and the server accepted
    the login. *)
Theorem authenticateClient_success_iff (config : IMAPConfig) (c : imapOps) :
  snd (auth config) = inl c
  <-> Password config <> ""%string
      /\ snd (connect config) = inl c
      /\ Login c (User config) (Password config) = None.
Proof.
  split.
  - intros H.
    assert (Hpw : Password config <> ""%string).
    { intros E. unfold authenticateClient in H. rewrite E in H.
      simpl in H. discriminate H. }
    split; [exact Hpw|]. apply password_set in Hpw.
    auth_cases; try congruence; split; congruence.
  - intros (Hpw & Hc & Hl). apply password_set in Hpw.
    auth_cases; congruence.
Qed.

End AuthFacts.

(** Two strings cut at the first occurrence of a separator agree on what
    comes before it. *)
Lemma append_sep_inj (sep : ascii) (a c b d : string) :
  indexByte a sep = None -> indexByte c sep = None ->
  (a ++ String sep b)%string = (c ++ String sep d)%string -> a = c /\ b = d.
Proof.
  revert c; induction a as [|x a IH]; intros [|y c]; simpl; intros Ha Hc E.
  - now injection E.
  - injection E as <- _. rewrite Ascii.eqb_refl in Hc. discriminate Hc.
  - injection E as -> _. rewrite Ascii.eqb_refl in Ha. discriminate Ha.
  - injection E as -> E.
    destruct (Ascii.eqb y sep); [discriminate|].
    destruct (indexByte a sep) eqn:Ea; [discriminate|].
    destruct (indexByte c sep) eqn:Ec; [discriminate|].
    destruct (IH c eq_refl Ec E) as [-> ->]. split; reflexivity.
Qed.

Lemma hasPrefix_loopback_server (server port : string) :
  indexByte server ":" = None ->
  hasPrefix (server ++ ":" ++ port) "127.0.0.1:" = true -> server = loopback.
Proof.
  intros Hs Hp. apply hasPrefix_split in Hp as [rest Hr].
  change ("127.0.0.1:" ++ rest)%string
    with ("127.0.0.1" ++ String ":" rest)%string in Hr.
  change (server ++ ":" ++ port)%string
    with (server ++ String ":" port)%string in Hr.
  now apply append_sep_inj in Hr as [-> _].
Qed.

Section AuthPolicyFacts.

Variable clientDial : string -> imapOps + error.
Variable clientDialTLS : string -> imapOps + error.

Local Abbreviation auth := (authenticateClient clientDial clientDialTLS).

(** X4: with a password, the insecure flag and a server name without a
    colon, [authenticateClient] dials nothing and logs in nowhere unless
    the server is 127.0.0.1: it returns the policy error for
    "<server>:<port>".  For 127.0.0.1 it dials "127.0.0.1:<port>" in the
    plain, once, and never over TLS. *)
Theorem authenticateClient_insecure_policy (config : IMAPConfig) :
  Password config <> ""%string ->
  Insecure config = true ->
  indexByte (Server config) ":" = None ->
  (Server config <> loopback ->
   auth config
   = ([EvLog LvlInfo ("connecting to server " ++ Server config);
       EvLog LvlError "cannot connect"],
      inr (insecureNotAllowed (serverWithPort config))))
  /\ (Server config = loopback ->
      List.filter isDial (fst (auth config))
      = [EvDial ("127.0.0.1:" ++ itoa (Port config))]).
Proof.
  intros Hpw Hins Hcolon. apply password_set in Hpw. split.
  - intros Hne. unfold authenticateClient, newImapClient.
    rewrite Hpw, Hins. cbn [negb].
    destruct (hasPrefix _ "127.0.0.1:") eqn:Hp.
    + apply hasPrefix_loopback_server in Hp; [contradiction | assumption].
    + reflexivity.
  - intros Hs. unfold authenticateClient, newImapClient.
    rewrite Hpw, Hins, Hs. cbn [negb].
    change (loopback ++ ":" ++ itoa (Port config))%string
      with ("127.0.0.1:" ++ itoa (Port config))%string.
    rewrite hasPrefix_append. cbn [negb].
    unfold dial, login, logInfo, logWarning, logError, emit, bind, ret.
    destruct (clientDial _) as [c|e]; [|reflexivity].
    destruct (Login c _ _); reflexivity.
Qed.


(** X6: [authenticateClient] never logs in without having connected and
    never tries twice: its trace holds at most one connection attempt and
    at most one [Login], and a [Login] comes after the connection attempt
    and carries the user and the password of the configuration. *)
Theorem authenticateClient_login_after_dial (config : IMAPConfig) :
  length (List.filter isDial (fst (auth config))) <= 1
  /\ length (List.filter isLogin (fst (auth config))) <= 1
  /\ forall pre post user password,
       fst (auth config) = pre ++ EvLogin user password :: post ->
       existsb isDial pre = true
       /\ user = User config /\ password = Password config.
Proof.
  split; [|split].
  - auth_cases; lia.
  - auth_cases; lia.
  - intros pre post user password.
    auth_cases; intros E;
      repeat (destruct pre as [|? pre]; simpl in E;
              [try discriminate E | injection E as <- E]);
      try discriminate E;
      try (injection E as <- <- _; auto);
      try (destruct pre; discriminate E).
Qed.

End AuthPolicyFacts.

Lemma authenticateClient_connect_error_witness :
  snd (authenticateClient unreachableDial unreachableDial localInsecure)
  = inr (External "connection refused").
Proof.
  apply (authenticateClient_connect_error unreachableDial unreachableDial
           localInsecure (External "connection refused"));
    [discriminate | reflexivity].
Defined.

Lemma authenticateClient_login_error_witness :
  let rejecting :=
    {| Login := fun _ _ => Some (External "bad credentials");
       List := List (exampleServer None);
       Select := Select (exampleServer None);
       Fetch := Fetch (exampleServer None);
       UidFetch := UidFetch (exampleServer None);
       Logout := None; Terminate := None |} in
  snd (authenticateClient (fun _ => inl rejecting) unreachableDial localInsecure)
  = inr (External "bad credentials").
Proof.
  intros rejecting.
  apply (authenticateClient_login_error (fun _ => inl rejecting) unreachableDial
           localInsecure rejecting (External "bad credentials"));
    [discriminate | reflexivity | reflexivity].
Defined.

Lemma authenticateClient_insecure_policy_witness :
  authenticateClient loopbackDial loopbackDial remoteInsecure
  = ([EvLog LvlInfo "connecting to server 203.0.113.5";
      EvLog LvlError "cannot connect"],
     inr (insecureNotAllowed "203.0.113.5:143"))
  /\ List.filter isDial
       (fst (authenticateClient loopbackDial loopbackDial localInsecure))
     = [EvDial "127.0.0.1:143"].
Proof.
  split.
  - apply (proj1 (authenticateClient_insecure_policy loopbackDial loopbackDial
                    remoteInsecure ltac:(discriminate) eq_refl eq_refl)).
    discriminate.
  - apply (proj2 (authenticateClient_insecure_policy loopbackDial loopbackDial
                    localInsecure ltac:(discriminate) eq_refl eq_refl)).
    reflexivity.
Defined.


(** ** Selecting a folder *)


(** ** More on producers drained by a range loop *)

Section DrainMoreFacts.

Context {A B R : Type}.
Variable cap : nat.
Variable request : R.
Variable reply : list A * option error.
Variable body : A -> list B -> option (list B).

Local Abbreviation step := (drain_step cap request reply body).
Local Abbreviation run := (drain_run cap request reply body).
Local Abbreviation inv := (drain_inv request reply body).
Local Abbreviation rank := (drain_rank (B := B) (R := R) reply).

(** Every step brings the end nearer. *)
Lemma drain_step_rank l s s' : step l s = Some s' -> rank s' < rank s.
Proof.
  destruct s as [prod main ch closed err acc calls].
  unfold drain_rank, main_rank, prod_rank, unsent.
  destruct l; simpl.
  - destruct prod as [[|[|a todo]| |]|]; try discriminate;
      try (destruct (Nat.ltb _ _); [|discriminate]);
      intros [= <-]; simpl; rewrite ?length_app; simpl;
      destruct main; lia.
  - destruct main; try discriminate.
    + destruct ch as [|a rest];
        [destruct closed; [|discriminate] | destruct (body a acc)];
        intros [= <-]; simpl; lia.
    + intros [= <-]; simpl; lia.
Qed.

Lemma drain_run_rank sched s s' :
  run sched s = Some s' -> length sched + rank s' <= rank s.
Proof.
  revert s; induction sched as [|l sched IH]; simpl; intros s.
  - intros [= <-]. lia.
  - destruct (step l s) as [q|] eqn:Hs; [|discriminate].
    intros Hr. specialize (IH q Hr).
    pose proof (drain_step_rank _ _ _ Hs). lia.
Qed.

(** No deadlock: as long as the caller has not returned, the caller or
    the producer can move. *)
Lemma drain_progress s :
  0 < cap -> inv s -> drain_running s -> exists l s', step l s = Some s'.
Proof.
  intros Hcap [recvd [Hp Hm]] Hrun.
  destruct s as [prod main ch closed err acc calls]; simpl in *.
  destruct Hrun as [Hr|Hr]; simpl in Hr; subst main.
  - destruct ch as [|a rest].
    + destruct closed.
      * exists Caller. eexists. reflexivity.
      * exists Producer.
        destruct prod as [[|[|a todo]| |]|]; try tauto;
          try (destruct Hp as (_ & Hx & _); discriminate Hx);
          try (eexists; reflexivity).
        simpl. apply Nat.ltb_lt in Hcap. rewrite Hcap. eexists; reflexivity.
    + exists Caller. simpl. destruct (body a acc); eexists; reflexivity.
  - exists Caller. eexists. reflexivity.
Qed.

(** The caller's [return] reads the shared [err] as it is then: the
    error of the call if the producer goroutine is done, nil otherwise. *)
Lemma drain_return_reads sched s s' :
  run sched drain_start = Some s -> d_main s = MReturn ->
  step Caller s = Some s' ->
  exists res,
    drain_fold body (fst reply) [] = Some res
    /\ d_main s'
       = MReturned res
           (match d_prod s with Some PDone => snd reply | _ => None end).
Proof.
  intros Hrun Hm Hstep.
  destruct (drain_inv_run _ _ _ _ _ _ _ (drain_inv_start _ _ _) Hrun)
    as [recvd [Hp Hq]].
  destruct s as [prod main ch closed err acc calls]; simpl in *. subst main.
  injection Hstep as <-. simpl.
  destruct Hq as (Hf & -> & ->). exists acc.
  destruct prod as [[|todo| |]|]; try tauto;
    try (destruct Hp as (_ & _ & Hx & _); discriminate Hx);
    try (destruct Hp as (_ & Hx & _); discriminate Hx);
    destruct Hp as (Hr & _ & -> & _); rewrite app_nil_r in Hr;
    rewrite Hr; auto.
Qed.

(** Calls made to the server: none before the producer has started, one
    afterwards, never a second. *)
Lemma drain_calls sched s :
  run sched drain_start = Some s ->
  (d_calls s = [] \/ d_calls s = [request])
  /\ (d_main s <> MRange -> d_calls s = [request]).
Proof.
  intros Hrun.
  destruct (drain_inv_run _ _ _ _ _ _ _ (drain_inv_start _ _ _) Hrun)
    as [recvd [Hp Hq]].
  destruct (d_prod s) as [[|todo| |]|]; try tauto;
    try (destruct Hp as (_ & _ & _ & ->); split; auto; fail).
  destruct Hp as (-> & Hch & Hcl & _ & ->). split; [auto|].
  intros Hm. destruct (d_main s); try congruence.
  - destruct Hq as (_ & Hx & _). congruence.
  - destruct Hq as (_ & Hx & _). congruence.
  - (* a panic needs a received value *)
    simpl in Hq. discriminate Hq.
Qed.

(** Sent one at a time and taken at once, a first part of the values
    leaves the channel empty and the body folded over it. *)
Lemma drain_pairs_prefix (tail : list drain_label) (pre rest : list A)
    (acc res : list B) :
  0 < cap -> drain_fold body pre acc = Some res ->
  run (concat (repeat [Producer; Caller] (length pre)) ++ tail)
    (mkDrain (Some (PSend (pre ++ rest))) MRange [] false None acc [request])
  = run tail (mkDrain (Some (PSend rest)) MRange [] false None res [request]).
Proof.
  intros Hcap. revert acc; induction pre as [|a pre IH]; intros acc Hf.
  - simpl in Hf. injection Hf as <-. reflexivity.
  - simpl in Hf. destruct (body a acc) as [acc'|] eqn:Hb; [|discriminate].
    cbn [length repeat concat app drain_run drain_step].
    apply Nat.ltb_lt in Hcap. cbn [length]. rewrite Hcap.
    cbn [app drain_run drain_step]. rewrite Hb. apply IH, Hf.
Qed.

End DrainMoreFacts.

(** ** More on [getAllMessageUUIDs] *)

Section EnumerateFacts.

Variable mbox : MailboxStatus.
Variable imapClient : imapOps.

Local Abbreviation fetchRequest :=
  (allMessages mbox, [FetchUid; FetchInternalDate]).
Local Abbreviation fetchReply :=
  (Fetch imapClient (allMessages mbox) [FetchUid; FetchInternalDate]).
Local Abbreviation run := (getAllMessageUUIDs_run mbox imapClient).
Local Abbreviation step :=
  (drain_step messageRetrievalBuffer fetchRequest fetchReply (uidBody mbox)).

Lemma getAllMessageUUIDs_inv sched s :
  run sched (getAllMessageUUIDs mbox imapClient) = Some s ->
  (Messages mbox = 0%Z /\ sched = []
   /\ s = mkDrain None (MReturned [] None) [] false None [] [])
  \/ (Messages mbox <> 0%Z
      /\ drain_run messageRetrievalBuffer fetchRequest fetchReply (uidBody mbox)
           sched drain_start = Some s).
Proof.
  unfold getAllMessageUUIDs, getAllMessageUUIDs_run.
  destruct (Z.eqb_spec (Messages mbox) 0) as [Hz|Hz]; intros Hrun.
  - left. split; [exact Hz|].
    destruct sched as [|[|] sched]; simpl in Hrun; try discriminate.
    injection Hrun as <-. auto.
  - right. auto.
Qed.

(** X8: with a [Fetch] that closes the channel when it has sent its
    entries, as the library's does, [getAllMessageUUIDs] always comes to
    an end: with n entries delivered by [Fetch], no interleaving of the
    caller and its producer goroutine has more than 2n+5 steps, and as
    long as the caller has not returned one of the two can move. *)
Theorem getAllMessageUUIDs_always_returns (sched : list drain_label) s :
  run sched (getAllMessageUUIDs mbox imapClient) = Some s ->
  length sched <= 2 * length (fst fetchReply) + 5
  /\ ((forall uids e, d_main s <> MReturned uids e) ->
      exists l s', step l s = Some s').
Proof.
  intros Hrun.
  destruct (getAllMessageUUIDs_inv _ _ Hrun) as [(_ & -> & ->)|(Hnz & Hr)].
  - split; [simpl; lia|]. intros H. exfalso. now apply (H [] None).
  - split.
    + pose proof (drain_run_rank _ _ _ _ _ _ _ Hr) as Hb.
      unfold drain_rank, main_rank, prod_rank, unsent in Hb; simpl in Hb. lia.
    + intros Hnot.
      pose proof (drain_inv_run _ _ _ _ _ _ _ (drain_inv_start _ _ _) Hr) as Hinv.
      apply drain_progress; [unfold messageRetrievalBuffer; lia | exact Hinv |].
      destruct (d_main s) eqn:Hm; unfold drain_running; rewrite ?Hm; auto.
      * exfalso. eapply Hnot; reflexivity.
      * exfalso. destruct Hinv as [recvd [_ Hq]].
        rewrite Hm, uidBody_fold in Hq. discriminate Hq.
Qed.

(** X9: [getAllMessageUUIDs] asks the server at most once, and only for
    the UID and the internal date of the messages 1 to [mbox.Messages],
    never for a message body; when it has returned for a mailbox that is
    not empty it has asked exactly once. *)
Theorem getAllMessageUUIDs_one_fetch (sched : list drain_label) s :
  run sched (getAllMessageUUIDs mbox imapClient) = Some s ->
  (d_calls s = []
   \/ d_calls s = [([SeqRange 1 (Messages mbox)], [FetchUid; FetchInternalDate])])
  /\ (Messages mbox <> 0%Z ->
      forall uids e, d_main s = MReturned uids e ->
      d_calls s = [([SeqRange 1 (Messages mbox)], [FetchUid; FetchInternalDate])]).
Proof.
  intros Hrun.
  destruct (getAllMessageUUIDs_inv _ _ Hrun) as [(Hz & -> & ->)|(Hnz & Hr)].
  - split; [left; reflexivity | contradiction].
  - destruct (drain_calls _ _ _ _ _ _ Hr) as (Hc & Hm). split; [exact Hc|].
    intros _ uids e Hret. apply Hm. rewrite Hret. discriminate.
Qed.

(** X10: the error [getAllMessageUUIDs] returns is the shared [err] as it
    is when the caller executes its [return]: the error of [Fetch] if the
    producer goroutine has assigned it by then, nil if it has not; the
    sequence returned is complete either way, and both cases occur. *)
Theorem getAllMessageUUIDs_error_read :
  Messages mbox <> 0%Z ->
  (forall sched s s',
      run sched (getAllMessageUUIDs mbox imapClient) = Some s ->
      d_main s = MReturn -> step Caller s = Some s' ->
      d_main s'
      = MReturned (uidsOf mbox (fst fetchReply))
          (match d_prod s with Some PDone => snd fetchReply | _ => None end))
  /\ (exists sched s,
        run sched (getAllMessageUUIDs mbox imapClient) = Some s
        /\ d_main s = MReturned (uidsOf mbox (fst fetchReply)) (snd fetchReply))
  /\ (exists sched s,
        run sched (getAllMessageUUIDs mbox imapClient) = Some s
        /\ d_main s = MReturned (uidsOf mbox (fst fetchReply)) None
        /\ d_err s = snd fetchReply).
Proof.
  intros Hnz.
  assert (Hstart : getAllMessageUUIDs mbox imapClient = drain_start).
  { unfold getAllMessageUUIDs.
    destruct (Z.eqb_spec (Messages mbox) 0); [contradiction | reflexivity]. }
  rewrite Hstart. unfold getAllMessageUUIDs_run.
  split; [|split].
  - intros sched s s' Hrun Hm Hstep.
    destruct (drain_return_reads _ _ _ _ _ _ _ Hrun Hm Hstep) as (res & Hf & Hd).
    rewrite uidBody_fold in Hf. injection Hf as <-. exact Hd.
  - eexists _, _. split.
    + apply drain_lockstep; [unfold messageRetrievalBuffer; lia|].
      apply uidBody_fold.
    + reflexivity.
  - eexists _, _. split.
    + apply drain_hasty; [unfold messageRetrievalBuffer; lia|].
      apply uidBody_fold.
    + split; reflexivity.
Qed.

End EnumerateFacts.

Lemma getAllMessageUUIDs_always_returns_witness :
  length lockstepBeforeReturn <= 2 * 3 + 5
  /\ exists l s',
       drain_step messageRetrievalBuffer
         (allMessages exampleMailbox, [FetchUid; FetchInternalDate])
         (Fetch (exampleServer (Some connectionLost)) (allMessages exampleMailbox)
            [FetchUid; FetchInternalDate])
         (uidBody exampleMailbox) l readyProducerDone = Some s'.
Proof.
  assert (Hrun : getAllMessageUUIDs_run exampleMailbox
                   (exampleServer (Some connectionLost)) lockstepBeforeReturn
                   (getAllMessageUUIDs exampleMailbox
                      (exampleServer (Some connectionLost)))
                 = Some readyProducerDone)
    by (vm_compute; reflexivity).
  destruct (getAllMessageUUIDs_always_returns exampleMailbox
              (exampleServer (Some connectionLost)) _ _ Hrun) as (Hlen & Hprog).
  split; [exact Hlen|]. apply Hprog. intros uids e. discriminate.
Defined.

Lemma getAllMessageUUIDs_one_fetch_witness :
  d_calls readyProducerDone = []
  \/ d_calls readyProducerDone
     = [([SeqRange 1 3], [FetchUid; FetchInternalDate])].
Proof.
  assert (Hrun : getAllMessageUUIDs_run exampleMailbox
                   (exampleServer (Some connectionLost)) lockstepBeforeReturn
                   (getAllMessageUUIDs exampleMailbox
                      (exampleServer (Some connectionLost)))
                 = Some readyProducerDone)
    by (vm_compute; reflexivity).
  exact (proj1 (getAllMessageUUIDs_one_fetch exampleMailbox
                  (exampleServer (Some connectionLost)) _ _ Hrun)).
Defined.

Lemma getAllMessageUUIDs_error_read_witness :
  match drain_step messageRetrievalBuffer
          (allMessages exampleMailbox, [FetchUid; FetchInternalDate])
          (Fetch (exampleServer (Some connectionLost)) (allMessages exampleMailbox)
             [FetchUid; FetchInternalDate])
          (uidBody exampleMailbox) Caller readyProducerLate
  with
  | Some s' =>
      d_main s' = MReturned [mkUidExt 42 1; mkUidExt 42 2; mkUidExt 42 3] None
  | None => False
  end.
Proof.
  assert (Hnz : Messages exampleMailbox <> 0%Z) by discriminate.
  assert (Hrun : getAllMessageUUIDs_run exampleMailbox
                   (exampleServer (Some connectionLost)) hastyBeforeReturn
                   (getAllMessageUUIDs exampleMailbox
                      (exampleServer (Some connectionLost)))
                 = Some readyProducerLate)
    by (vm_compute; reflexivity).
  destruct (drain_step _ _ _ _ Caller readyProducerLate) as [s'|] eqn:Hstep.
  - exact (proj1 (getAllMessageUUIDs_error_read exampleMailbox
                    (exampleServer (Some connectionLost)) Hnz)
             _ _ s' Hrun eq_refl Hstep).
  - vm_compute in Hstep. discriminate Hstep.
Defined.

(** ** More on [getFolderList] *)

Lemma folderBody_fold_nil (pre : list MailboxInfo)
    (post : list (option MailboxInfo)) (acc : list string) :
  drain_fold folderBody (map Some pre ++ None :: post) acc = None.
Proof.
  revert acc; induction pre as [|m pre IH]; intros acc; simpl;
    [reflexivity | apply IH].
Qed.

Section ListFacts.

Variable imapClient : imapOps.

Local Abbreviation listReply := (List imapClient "" "*").
Local Abbreviation run := (getFolderList_run imapClient).
Local Abbreviation step :=
  (drain_step folderListBuffer ("", "*")%string listReply folderBody).

(** X11: under every interleaving, when [getFolderList] returns, its
    folders are the names of the entries [List] sent, in the order they
    were sent; [List] has been called exactly once, with the reference ""
    and the pattern "*"; the error is nil or the one of [List], so it is
    nil whenever [List] succeeded. *)
Theorem getFolderList_names_in_order (boxes : list MailboxInfo)
    (sched : list drain_label) s folders e :
  fst listReply = map Some boxes ->
  run sched (getFolderList imapClient) = Some s ->
  d_main s = MReturned folders e ->
  folders = map Name boxes
  /\ d_calls s = [("", "*")%string]
  /\ (e = None \/ e = snd listReply)
  /\ (snd listReply = None -> e = None).
Proof.
  intros Hb Hrun Hm.
  destruct (drain_returned _ _ _ _ _ _ _ _ Hrun Hm) as (Hf & He & Hc).
  rewrite Hb, folderBody_fold in Hf. injection Hf as <-.
  repeat split; auto. intros Hn. rewrite Hn in He. tauto.
Qed.

(** X12: a nil pointer among the entries [List] sends makes
    [getFolderList] panic: it never returns, whatever the interleaving,
    and the caller that takes each entry as it comes reaches the panic
    with the names before the nil pointer gathered. *)
Theorem getFolderList_nil_entry_panics (pre : list MailboxInfo)
    (post : list (option MailboxInfo)) :
  fst listReply = map Some pre ++ None :: post ->
  (forall sched s folders e,
      run sched (getFolderList imapClient) = Some s ->
      d_main s <> MReturned folders e)
  /\ exists sched s,
       run sched (getFolderList imapClient) = Some s
       /\ d_main s = MPanic /\ d_acc s = map Name pre.
Proof.
  intros Hb.
  assert (Hfold : drain_fold folderBody (fst listReply) [] = None).
  { rewrite Hb. apply folderBody_fold_nil. }
  split.
  - intros sched s folders e Hrun Hm.
    destruct (drain_returned _ _ _ _ _ _ _ _ Hrun Hm) as (Hf & _).
    rewrite Hfold in Hf. discriminate Hf.
  - exists ([Producer] ++ concat (repeat [Producer; Caller] (length (map Some pre)))
            ++ [Producer; Caller]).
    eexists. split.
    + unfold getFolderList_run, getFolderList, drain_start.
      cbn [app drain_run drain_step]. rewrite Hb.
      rewrite (drain_pairs_prefix folderListBuffer _ listReply folderBody
                 [Producer; Caller] (map Some pre) (None :: post) [] (map Name pre));
        [| unfold folderListBuffer; lia | apply (folderBody_fold pre [])].
      reflexivity.
    + split; reflexivity.
Qed.

(** X13: with a [List] that closes the channel when it has sent its
    entries, as the library's does, [getFolderList] always comes to an
    end: with n entries sent by [List], no interleaving of the caller and
    its producer goroutine has more than 2n+5 steps, and as long as the
    caller is in its loop or about to return, one of the two can move. *)
Theorem getFolderList_always_ends (sched : list drain_label) s :
  run sched (getFolderList imapClient) = Some s ->
  length sched <= 2 * length (fst listReply) + 5
  /\ (drain_running s -> exists l s', step l s = Some s').
Proof.
  intros Hrun. split.
  - pose proof (drain_run_rank _ _ _ _ _ _ _ Hrun) as Hb.
    unfold getFolderList, drain_rank, main_rank, prod_rank, unsent in Hb;
      simpl in Hb. lia.
  - intros Hr.
    pose proof (drain_inv_run _ _ _ _ _ _ _ (drain_inv_start _ _ _) Hrun) as Hinv.
    apply drain_progress; [unfold folderListBuffer; lia | exact Hinv | exact Hr].
Qed.

End ListFacts.

Lemma getFolderList_names_in_order_witness :
  getFolderList_run (exampleServer None) (lockstep 1)
    (getFolderList (exampleServer None))
  = Some (mkDrain (Some PDone) (MReturned ["INBOX"%string] None) [] true None
            ["INBOX"%string] [("", "*")%string])
  /\ ["INBOX"%string] = map Name [{| Name := "INBOX" |}].
Proof.
  assert (Hrun : getFolderList_run (exampleServer None) (lockstep 1)
                   (getFolderList (exampleServer None))
                 = Some (mkDrain (Some PDone) (MReturned ["INBOX"%string] None)
                           [] true None ["INBOX"%string] [("", "*")%string]))
    by (vm_compute; reflexivity).
  split; [exact Hrun|].
  exact (proj1 (getFolderList_names_in_order (exampleServer None)
                  [{| Name := "INBOX" |}] _ _ _ _ eq_refl Hrun eq_refl)).
Defined.

Lemma getFolderList_nil_entry_panics_witness :
  exists sched s,
    getFolderList_run nilListServer sched (getFolderList nilListServer) = Some s
    /\ d_main s = MPanic /\ d_acc s = ["INBOX"%string].
Proof.
  exact (proj2 (getFolderList_nil_entry_panics nilListServer
                  [{| Name := "INBOX" |}] [Some {| Name := "Sent" |}] eq_refl)).
Defined.

Lemma getFolderList_always_ends_witness :
  length (lockstep 1) <= 2 * 1 + 5.
Proof.
  assert (Hrun : getFolderList_run (exampleServer None) (lockstep 1)
                   (getFolderList (exampleServer None))
                 = Some (mkDrain (Some PDone) (MReturned ["INBOX"%string] None)
                           [] true None ["INBOX"%string] [("", "*")%string]))
    by (vm_compute; reflexivity).
  exact (proj1 (getFolderList_always_ends (exampleServer None) _ _ Hrun)).
Defined.

(** ** More on the single-fire primitive *)

Section OnceMoreFacts.

Context {W : Type}.
Variable hook : W -> W.
Variable w0 : W.

(** X14: [innerHook] sets [called] before it runs the wrapped action, and
    [sync.Once] sets its flag after: at every moment, while [called] reads
    false the wrapped action has not touched anything, and once the flag is
    set the wrapped action is complete; in between the action has run at
    most once. *)
Theorem once_called_before_hook (todo : list nat) (sched : list tid)
    (p : pool) :
  pool_run hook sched (pool_init w0 todo) = Some p ->
  (called (p_once p) = false -> fired (p_once p) = 0 /\ world (p_once p) = w0)
  /\ (done (p_once p) = true ->
      called (p_once p) = true /\ fired (p_once p) = 1
      /\ world (p_once p) = hook w0)
  /\ (world (p_once p) = w0 \/ world (p_once p) = hook w0).
Proof.
  intros Hrun.
  destruct (pool_inv_run hook w0 _ _ _ (pool_inv_init hook w0 todo) Hrun)
    as [(_ & _ & _ & Hdone & Hcalled & Hle & Hw) _].
  split; [|split].
  - intros Hc. specialize (Hcalled Hc). rewrite Hw, Hcalled. auto.
  - intros Hd. destruct (Hdone Hd) as (Hf & Hc). rewrite Hw, Hf. auto.
  - rewrite Hw. destruct (fired (p_once p)) as [|[|n]]; simpl; auto. lia.
Qed.

End OnceMoreFacts.

Lemma once_called_before_hook_witness :
  let p := {| p_once := {| called := true; done := false; mu := Some 0;
                           fired := 0; world := 5%Z |};
              p_callers := [mkCaller (Calling HookRun) 1; mkCaller Idle 1];
              p_returned := 0 |} in
  pool_run Z.succ (repeat 0 5) (pool_init 5%Z [2; 1]) = Some p
  /\ (world (p_once p) = 5%Z \/ world (p_once p) = 6%Z).
Proof.
  intros p.
  assert (Hrun : pool_run Z.succ (repeat 0 5) (pool_init 5%Z [2; 1]) = Some p)
    by (vm_compute; reflexivity).
  split; [exact Hrun|].
  exact (proj2 (proj2 (once_called_before_hook Z.succ 5%Z [2; 1] _ p Hrun))).
Defined.

(** ** More on the retrieval pipeline *)

Section RetrievalMoreFacts.

Variable intToUint32 : Z -> Z.
Variable imapClient : imapOps.
Variable uids : list uid.
Variable wg : Z.

Local Abbreviation step := (pipeline_step intToUint32 imapClient uids).
Local Abbreviation run := (pipeline_run intToUint32 imapClient uids).
Local Abbreviation reply := (uidFetchReply intToUint32 imapClient uids).
Local Abbreviation inv := (pipeline_inv intToUint32 imapClient uids wg).
Local Abbreviation inv_more := (pipeline_inv_more intToUint32 imapClient uids wg).

Lemma pipeline_barrier_step l p p' :
  barrier_inv p -> step l p = Some p' -> barrier_inv p'.
Proof.
  intros Hinv Hstep. unfold barrier_inv in *.
  destruct p as [o ec st f t oc out ocl calls dl cs cn ti fi].
  destruct l; crack Hstep; simpl in *; intuition congruence.
Qed.

Lemma pipeline_origin_step l p p' :
  inv p -> origin_inv p -> step l p = Some p' -> origin_inv p'.
Proof.
  intros (_ & _ & _ & _ & Hx) Hinv Hstep. unfold origin_inv, cancel_inv in *.
  destruct p as [o ec st f t oc out ocl calls dl cs cn ti fi].
  destruct l; crack Hstep; simpl in *; intuition congruence.
Qed.

Lemma pipeline_fdone_step l p p' :
  inv p -> fdone_inv p -> step l p = Some p' -> fdone_inv p'.
Proof.
  intros (Ho & _) Hinv Hstep. unfold fdone_inv in *.
  assert (F : p_fetch p = FOnce DoReturn -> done (p_already p) = true).
  { intros Hf. destruct Ho as (Hok & _). apply (Hok fetchTid DoReturn).
    unfold pipeline_pcs; simpl. now rewrite Hf. }
  clear Ho.
  destruct p as [o ec st f t oc out ocl calls dl cs cn ti fi].
  destruct l; crack Hstep; simpl in *; intuition congruence.
Qed.

Lemma pipeline_inv_more_start : inv_more (pipeline_start wg).
Proof.
  split; [apply pipeline_inv_start|].
  unfold barrier_inv, origin_inv, fdone_inv; simpl.
  repeat split; intros; discriminate.
Qed.

Lemma pipeline_inv_more_run sched p p' :
  inv_more p -> run sched p = Some p' -> inv_more p'.
Proof.
  revert p; induction sched as [|l sched IH]; simpl; intros p Hinv.
  - now intros [= <-].
  - destruct (step l p) as [q|] eqn:Hs; [|discriminate].
    apply IH. destruct Hinv as (Hi & Hb & Ho & Hf).
    split; [|split; [|split]].
    + eapply pipeline_inv_step; eassumption.
    + eapply pipeline_barrier_step; eassumption.
    + eapply pipeline_origin_step; eassumption.
    + eapply pipeline_fdone_step; eassumption.
Qed.

End RetrievalMoreFacts.

Lemma checkUids_value (uids : list uid) (err : error) :
  checkUids uids = Some err -> err = uidNotPositive /\ Exists (fun u => (u <= 0)%Z) uids.
Proof.
  induction uids as [|v rest IH]; simpl; [discriminate|].
  destruct (Z.leb_spec v 0) as [Hle|Hgt].
  - intros [= <-]. split; [reflexivity|]. now apply Exists_cons_hd.
  - intros Hrest. destruct (IH Hrest) as (-> & Hex). split; [reflexivity|].
    now apply Exists_cons_tl.
Qed.

Lemma checkUids_none (uids : list uid) :
  checkUids uids = None -> Forall (fun u => (0 < u)%Z) uids.
Proof.
  induction uids as [|v rest IH]; simpl; [constructor|].
  destruct (Z.leb_spec v 0) as [Hle|Hgt]; [discriminate|].
  intros Hrest. constructor; [lia | auto].
Qed.

(** X15: [streamingRetrieval] starts its two goroutines exactly when every
    identifier is positive, an empty list included, and it then registers
    with the wait group first; it refuses, with the one validation error,
    exactly when some identifier is zero or negative. *)
Theorem streamingRetrieval_accepts_iff (uids : list uid) (wg : Z) :
  (streamingRetrieval uids wg = Streaming (pipeline_start wg)
   <-> Forall (fun u => (0 < u)%Z) uids)
  /\ (streamingRetrieval uids wg = Refused uidNotPositive
      <-> Exists (fun u => (u <= 0)%Z) uids)
  /\ streamingRetrieval [] wg = Streaming (pipeline_start wg)
  /\ world (p_already (pipeline_start wg)) = (wg + 1)%Z.
Proof.
  unfold streamingRetrieval. repeat split.
  - destruct (checkUids uids) eqn:Hc; [discriminate|].
    intros _. now apply checkUids_none.
  - intros Hall. now rewrite (checkUids_accepts uids Hall).
  - destruct (checkUids uids) eqn:Hc; [|discriminate].
    intros _. now apply checkUids_value in Hc.
  - intros Hex. rewrite (checkUids_refuses uids); [reflexivity|].
    apply Exists_exists in Hex as (u & Hin & Hle). exists u.
    split; [now apply list_elem_of_In | exact Hle].
Qed.

Section RetrievalTheorems.

Variable intToUint32 : Z -> Z.
Variable imapClient : imapOps.
Variable uids : list uid.
Variable wg : Z.

Local Abbreviation step := (pipeline_step intToUint32 imapClient uids).
Local Abbreviation run := (pipeline_run intToUint32 imapClient uids).
Local Abbreviation reply := (uidFetchReply intToUint32 imapClient uids).

(** X16: the fetch goroutine does nothing before [startWg] is released,
    and [UidFetch] is called at most once: for the identifiers of the
    call, each turned into a number of the sequence set in order, and for
    the items UID, internal date and full message. *)
Theorem streamingRetrieval_fetch_after_barrier (sched : list label) p :
  run sched (pipeline_start wg) = Some p ->
  (p_started p = false ->
   p_fetch p = FWait /\ p_calls p = [] /\ p_delivered p = [])
  /\ (p_calls p = []
      \/ p_calls p = [(map (fun u => SeqNum (intToUint32 u)) uids,
                       [FetchUid; FetchInternalDate; FetchRFC822])]).
Proof.
  intros Hrun.
  destruct (pipeline_inv_more_run _ _ _ _ _ _ _
              (pipeline_inv_more_start _ _ _ _) Hrun)
    as ((_ & Hf & _) & Hb & _).
  unfold fetch_inv in Hf. split.
  - intros Hs. specialize (Hb Hs). rewrite Hb in Hf. tauto.
  - destruct (p_fetch p); intuition.
Qed.

(** X17: [wg.Done()] runs at most once, whichever of the two goroutines
    gets to it: the counter of the wait group is the one of before the
    call plus one until [wg.Done()] runs and the one of before the call
    afterwards, never less; when the fetch goroutine has ended
    [wg.Done()] has run. *)
Theorem streamingRetrieval_wg_done_once (sched : list label) p :
  run sched (pipeline_start wg) = Some p ->
  ((fired (p_already p) = 0 /\ world (p_already p) = (wg + 1)%Z)
   \/ (fired (p_already p) = 1 /\ world (p_already p) = wg))
  /\ (p_fetch p = FDone ->
      fired (p_already p) = 1 /\ world (p_already p) = wg).
Proof.
  intros Hrun.
  destruct (pipeline_inv_more_run _ _ _ _ _ _ _
              (pipeline_inv_more_start _ _ _ _) Hrun)
    as (((_ & _ & _ & Hdone & _ & Hle & Hw) & _) & _ & _ & Hfd).
  assert (Hone : fired (p_already p) = 1 -> world (p_already p) = wg).
  { intros H1. rewrite Hw, H1. simpl. unfold wgDone. lia. }
  split.
  - assert (Hf : fired (p_already p) = 0 \/ fired (p_already p) = 1) by lia.
    destruct Hf as [Hf|Hf]; [left|right]; (split; [exact Hf|]).
    + rewrite Hw, Hf. reflexivity.
    + now apply Hone.
  - intros Hf. destruct (Hdone (Hfd Hf)) as (H1 & _). split; [exact H1|].
    now apply Hone.
Qed.

(** X18: [errCount] counts at most the failure of [UidFetch] and the
    interrupt: it is never below 0 nor above 2; as long as no poll of
    [interrupted] has answered true it is what the fetch goroutine has
    added, so it stays 0 when [UidFetch] succeeds, and when the fetch
    goroutine has ended it is 1 if [UidFetch] failed and 0 if not. *)
Theorem streamingRetrieval_errCount (sched : list label) p :
  run sched (pipeline_start wg) = Some p ->
  (0 <= p_errCount p <= 2)%Z
  /\ (p_cancelled p = false ->
      p_errCount p = Z.of_nat (p_fIncs p)
      /\ (uf_err reply = None -> p_errCount p = 0%Z)
      /\ (p_fetch p = FDone ->
          p_errCount p = match uf_err reply with Some _ => 1 | None => 0 end%Z)).
Proof.
  intros Hrun.
  destruct (pipeline_inv_run _ _ _ _ _ _ _ (pipeline_inv_start _ _ _ _) Hrun)
    as (_ & _ & _ & Hc & Hx).
  unfold count_inv in Hc. destruct Hc as (He & Hpos & _ & _ & Hfi).
  assert (Hti : p_tIncs p <= 1 /\ (p_cancelled p = false -> p_tIncs p = 0)).
  { unfold cancel_inv in Hx.
    destruct (p_trans p); destruct (p_cancelled p);
      intuition (try discriminate; lia). }
  assert (Hfb : p_fIncs p <= 1
                /\ (uf_err reply = None -> p_fIncs p = 0)
                /\ (p_fetch p = FDone ->
                    p_fIncs p = match uf_err reply with Some _ => 1 | None => 0 end)).
  { destruct (p_fetch p); destruct (uf_err reply);
      intuition (try discriminate; try congruence; lia). }
  destruct Hti as (Hti1 & Hti0). destruct Hfb as (Hf1 & Hf0 & Hfd).
  split; [lia|]. intros Hnc. specialize (Hti0 Hnc).
  assert (Heq : p_errCount p = Z.of_nat (p_fIncs p)).
  { destruct (p_fIncs p) as [|n]; [lia|].
    assert (1 <= p_errCount p)%Z by (apply Hpos; lia). lia. }
  split; [exact Heq|split].
  - intros Hn. rewrite Heq, (Hf0 Hn). reflexivity.
  - intros Hd. rewrite Heq, (Hfd Hd). destruct (uf_err reply); reflexivity.
Qed.

(** X19: the translation goroutine loses nothing: when it has ended,
    everything that [UidFetch] handed over and that is not nil has gone
    into the returned channel, in order; and if no poll of [interrupted]
    answered true, that is everything [UidFetch] had to send. *)
Theorem streamingRetrieval_nothing_lost (sched : list label) p :
  run sched (pipeline_start wg) = Some p ->
  p_trans p = TDone ->
  output p = omap id (p_delivered p)
  /\ (p_cancelled p = false -> output p = omap id (uf_sends reply)).
Proof.
  intros Hrun Ht.
  destruct (pipeline_inv_more_run _ _ _ _ _ _ _
              (pipeline_inv_more_start _ _ _ _) Hrun)
    as ((_ & Hf & (Ho & _) & _ & Hx) & _ & Hor & _).
  rewrite Ht, app_nil_r in Ho. unfold output.
  split; [now rewrite Ho|]. intros Hnc.
  unfold cancel_inv in Hx. rewrite Ht in Hx. destruct Hx as (Hcalled & _).
  destruct (Hor Hcalled) as [Hc|Hfe]; [congruence|].
  unfold fetch_inv in Hf. rewrite <- Ho.
  destruct (p_fetch p); try contradiction; destruct Hf as (-> & _); reflexivity.
Qed.

(** X20: once the translation goroutine has ended nobody receives from
    [orgMessageChan]: a [UidFetch] that has still an entry to send stays
    where it is for ever, so the fetch goroutine never counts its error,
    never calls [already.call()] and never ends; only the set-up and the
    consumer can still move. *)
Theorem streamingRetrieval_fetch_left_blocked (p : pipeline)
    (m : option Message) (todo : list (option Message))
    (sched' : list label) p' :
  p_trans p = TDone -> p_fetch p = FSend (m :: todo) ->
  run sched' p = Some p' ->
  p_fetch p' = FSend (m :: todo) /\ p_trans p' = TDone
  /\ p_errCount p' = p_errCount p /\ p_already p' = p_already p
  /\ goroutineSteps sched' = 0.
Proof.
  revert p; induction sched' as [|l sched' IH]; simpl; intros p Ht Hf.
  - intros [= <-]. auto.
  - destruct (step l p) as [q|] eqn:Hs; [|discriminate]. intros Hrun.
    assert (Hq : p_fetch q = FSend (m :: todo) /\ p_trans q = TDone
                 /\ p_errCount q = p_errCount p /\ p_already q = p_already p
                 /\ isGoroutine l = false).
    { destruct p as [o ec st f t oc out ocl calls dl cs cn ti fi].
      simpl in Ht, Hf. subst f t.
      destruct l; crack Hs; simpl; auto. }
    destruct Hq as (Hf' & Ht' & He & Ha & Hg).
    destruct (IH q Ht' Hf' Hrun) as (H1 & H2 & H3 & H4 & H5).
    rewrite Hg. repeat split; auto; congruence.
Qed.

End RetrievalTheorems.

Section QuietRun.

Variable intToUint32 : Z -> Z.
Variable imapClient : imapOps.
Variable uids : list uid.
Variable wg : Z.

Local Abbreviation run := (pipeline_run intToUint32 imapClient uids).
Local Abbreviation reply := (uidFetchReply intToUint32 imapClient uids).
Local Abbreviation call := (seqsetOf intToUint32 uids, retrievalItems).

Lemma pipeline_run_app s1 s2 p :
  run (s1 ++ s2) p = match run s1 p with Some q => run s2 q | None => None end.
Proof.
  revert p; induction s1 as [|l s1 IH]; simpl; intros p; [reflexivity|].
  destruct (pipeline_step _ _ _ l p); [apply IH | reflexivity].
Qed.

(** Entry by entry: handed over, passed on, taken. *)
Lemma quiet_entries (todo dl : list (option Message)) (cs : list Message)
    (tail : list label) :
  run (concat (map entrySchedule todo) ++ tail)
    (mkPipeline (newOnce (wg + 1)%Z) 0%Z true (FSend todo) TLoop false [] false
       [call] dl cs false 0 0)
  = run tail
      (mkPipeline (newOnce (wg + 1)%Z) 0%Z true (FSend []) TLoop false [] false
         [call] (dl ++ todo) (cs ++ omap id todo) false 0 0).
Proof.
  revert dl cs; induction todo as [|[m|] todo IH]; intros dl cs.
  - simpl. now rewrite !app_nil_r.
  - cbn [map concat]. rewrite <- app_assoc. simpl.
    rewrite IH, <- !app_assoc. reflexivity.
  - cbn [map concat]. rewrite <- app_assoc. simpl.
    rewrite IH, <- !app_assoc. reflexivity.
Qed.

(** X21: a retrieval for positive identifiers that nobody interrupts can
    run to its end, whatever [UidFetch] sends and returns:
    [streamingRetrieval] starts the two goroutines, and there is an
    interleaving after which both have ended, the consumer holds every
    entry that is not nil, in order, the returned channel is empty and
    closed, [wg.Done()] has run once, and [errCount] is 1 if [UidFetch]
    failed and 0 if not. *)
Theorem streamingRetrieval_quiet_run :
  Forall (fun u => (0 < u)%Z) uids ->
  exists s p,
    streamingRetrieval uids wg = Streaming s
    /\ run (quietSchedule reply) s = Some p
    /\ p_fetch p = FDone /\ p_trans p = TDone
    /\ p_consumed p = omap id (uf_sends reply)
    /\ p_out p = [] /\ p_outClosed p = true
    /\ p_cancelled p = false
    /\ p_errCount p = match uf_err reply with Some _ => 1 | None => 0 end%Z
    /\ fired (p_already p) = 1 /\ world (p_already p) = wg.
Proof.
  intros Hpos. exists (pipeline_start wg).
  destruct (run (quietSchedule reply) (pipeline_start wg)) as [p|] eqn:Hrun.
  - exists p.
    split; [unfold streamingRetrieval; now rewrite (checkUids_accepts uids Hpos)|].
    split; [reflexivity|].
    unfold quietSchedule, pipeline_start in Hrun.
    cbn [app pipeline_run pipeline_step] in Hrun.
    rewrite quiet_entries in Hrun.
    destruct (uf_err reply) eqn:He;
      cbn [app repeat pipeline_run pipeline_step] in Hrun;
      rewrite ?He in Hrun; simpl in Hrun;
      injection Hrun as <-; simpl;
      repeat split; unfold wgDone; lia.
  - exfalso.
    unfold quietSchedule, pipeline_start in Hrun.
    cbn [app pipeline_run pipeline_step] in Hrun.
    rewrite quiet_entries in Hrun.
    destruct (uf_err reply) eqn:He;
      cbn [app repeat pipeline_run pipeline_step] in Hrun;
      rewrite ?He in Hrun; simpl in Hrun; discriminate Hrun.
Qed.

End QuietRun.

Lemma streamingRetrieval_quiet_run_witness :
  exists s p,
    streamingRetrieval [1; 2; 3]%Z 0 = Streaming s
    /\ pipeline_run (fun n => n) (exampleServer (Some connectionLost))
         [1; 2; 3]%Z
         (quietSchedule
            (uidFetchReply (fun n => n) (exampleServer (Some connectionLost))
               [1; 2; 3]%Z)) s = Some p
    /\ p_fetch p = FDone /\ p_trans p = TDone
    /\ p_consumed p
       = [{| Uid := 1; InternalDate := 0; Body := "" |};
          {| Uid := 2; InternalDate := 0; Body := "" |};
          {| Uid := 3; InternalDate := 0; Body := "" |}]
    /\ p_outClosed p = true /\ p_errCount p = 1%Z
    /\ world (p_already p) = 0%Z.
Proof.
  assert (Hpos : Forall (fun u => (0 < u)%Z) [1; 2; 3]%Z)
    by (repeat constructor).
  destruct (streamingRetrieval_quiet_run
              (fun n => n) (exampleServer (Some connectionLost))
              [1; 2; 3]%Z 0%Z Hpos)
    as (s & p & Hs & Hrun & Hf & Ht & Hc & _ & Hcl & _ & He & _ & Hw).
  exists s, p. repeat split; assumption.
Defined.

Lemma streamingRetrieval_fetch_after_barrier_witness :
  p_calls afterCancel = []
  \/ p_calls afterCancel
     = [([SeqNum 1; SeqNum 2; SeqNum 3],
         [FetchUid; FetchInternalDate; FetchRFC822])].
Proof.
  assert (Hrun : pipeline_run (fun n => n) (exampleServer None) [1; 2; 3]%Z
                   cancelSchedule (pipeline_start 0) = Some afterCancel)
    by (vm_compute; reflexivity).
  exact (proj2 (streamingRetrieval_fetch_after_barrier
                  (fun n => n) (exampleServer None) [1; 2; 3]%Z 0%Z _ _ Hrun)).
Defined.

Lemma streamingRetrieval_wg_done_once_witness :
  (fired (p_already afterCancel) = 0 /\ world (p_already afterCancel) = (0 + 1)%Z)
  \/ (fired (p_already afterCancel) = 1 /\ world (p_already afterCancel) = 0%Z).
Proof.
  assert (Hrun : pipeline_run (fun n => n) (exampleServer None) [1; 2; 3]%Z
                   cancelSchedule (pipeline_start 0) = Some afterCancel)
    by (vm_compute; reflexivity).
  exact (proj1 (streamingRetrieval_wg_done_once
                  (fun n => n) (exampleServer None) [1; 2; 3]%Z 0%Z _ _ Hrun)).
Defined.

Lemma streamingRetrieval_errCount_witness :
  (0 <= p_errCount afterTwoOfThree <= 2)%Z
  /\ p_errCount afterTwoOfThree = 0%Z.
Proof.
  assert (Hrun : pipeline_run (fun n => n) (exampleServer None) [1; 2; 3]%Z
                   twoMessagesSchedule (pipeline_start 0) = Some afterTwoOfThree)
    by (vm_compute; reflexivity).
  destruct (streamingRetrieval_errCount
              (fun n => n) (exampleServer None) [1; 2; 3]%Z 0%Z _ _ Hrun)
    as (Hb & Hq).
  split; [exact Hb|]. exact (proj1 (proj2 (Hq eq_refl)) eq_refl).
Defined.

Lemma streamingRetrieval_nothing_lost_witness :
  output afterCancel = [{| Uid := 1; InternalDate := 0; Body := "" |}].
Proof.
  assert (Hrun : pipeline_run (fun n => n) (exampleServer None) [1; 2; 3]%Z
                   cancelSchedule (pipeline_start 0) = Some afterCancel)
    by (vm_compute; reflexivity).
  exact (proj1 (streamingRetrieval_nothing_lost
                  (fun n => n) (exampleServer None) [1; 2; 3]%Z 0%Z _ _
                  Hrun eq_refl)).
Defined.

Lemma streamingRetrieval_fetch_left_blocked_witness :
  pipeline_run (fun n => n) (exampleServer None) [1; 2; 3]%Z
    cancelSchedule (pipeline_start 0) = Some afterCancel
  /\ match pipeline_run (fun n => n) (exampleServer None) [1; 2; 3]%Z
             [LConsume] afterCancel
     with
     | Some p' =>
         p_fetch p' = p_fetch afterCancel /\ p_trans p' = TDone
         /\ p_errCount p' = 1%Z /\ p_consumed p' <> p_consumed afterCancel
     | None => False
     end.
Proof.
  split; [vm_compute; reflexivity|].
  destruct (pipeline_run _ _ _ [LConsume] afterCancel) as [p'|] eqn:Hrun.
  - destruct (streamingRetrieval_fetch_left_blocked
                (fun n => n) (exampleServer None) [1; 2; 3]%Z afterCancel
                _ _ _ p' eq_refl eq_refl Hrun) as (Hf & Ht & He & _).
    repeat split; try assumption.
    vm_compute in Hrun. injection Hrun as <-. simpl. discriminate.
  - vm_compute in Hrun. discriminate Hrun.
Defined.

(** X22: the key of the deduplication is injective on every pair of
    integers, negative ones and zero included: two extended identifiers
    that render to the same string are the same identifier, so a rendered
    key never stands for two messages. *)
Theorem uidExt_String_injective (u v : uidExt) :
  uidExt_String u = uidExt_String v <-> (folder u = folder v /\ msg u = msg v).
Proof.
  split.
  - intros E. apply uidExt_String_inj in E. now subst.
  - destruct u, v; simpl. intros (-> & ->). reflexivity.
Qed.
